(** * historian.utils (js/utils.js): a shallow embedding and its properties

    The module is a collection of stateless helpers.  The embedding follows
    the source function by function:

    - JavaScript exceptions are results in the [outcome] monad;
    - time stamps are integers ([Z], milliseconds since the epoch), the
      other numbers are exact rationals extended with [Infinity] and [NaN];
    - an array is a list; where sharing matters, arrays and entries are
      objects in a store ([Store]);
    - the functions that js/utils.js imports from the Closure Library
      ([goog.array], [goog.math.Range], [goog.asserts], [goog.string]) and
      from the language ([forEach], [slice], [toFixed]) are not part of the
      module; they are written out here after the library's code and the
      language standard.

    The first part holds the definitions, the second part the properties:
    the range queries [inTimeRange] and [inTimeRangeMulti] (C1 to C5), the
    total charge (C6), the derivative (C7), the formatting of byte counts
    (C8), identifiers (C9) and segment intersection (C10).  A last part
    holds further properties of these functions and of [padString] (X1 to
    X18). *)

From Equations Require Import Equations.
From stdpp Require Import base list strings gmap pretty.
From Stdlib Require Import Ascii ZArith QArith Qround Qabs Lia.

Local Open Scope Z_scope.

(** ** Exceptions *)

Inductive exn : Type :=
| AssertionError (msg : string)
| TypeError.

Inductive outcome (A : Type) : Type :=
| Ok (a : A)
| Throw (e : exn).
Arguments Ok {A} a.
Arguments Throw {A} e.

#[global] Instance outcome_ret : MRet outcome := λ A a, Ok a.
#[global] Instance outcome_bind : MBind outcome := λ A B k m,
  match m with
  | Ok a => k a
  | Throw e => Throw e
  end.

(** [arr[i]] followed by a property access: reading a property of
    [undefined] throws a [TypeError]. *)
Definition at_index {A} (arr : list A) (i : nat) : outcome A :=
  match arr !! i with
  | Some x => Ok x
  | None => Throw TypeError
  end.

(** ** goog.array *)

Module array.

Definition isEmpty {A} (arr : list A) : bool :=
  bool_decide (length arr = 0%nat).

(** The loop of [goog.array.binarySearch_]:
<<
    var left = 0;            // inclusive
    var right = arr.length;  // exclusive
    var found;
    while (left < right) {
      var middle = (left + right) >> 1;
      var compareResult = compareFn(opt_target, arr[middle]);
      if (compareResult > 0) {
        left = middle + 1;
      } else {
        right = middle;
        // We are looking for the lowest index so we can't return
        // immediately.
        found = !compareResult;
      }
    }
    // left is the index if found, or the insertion point otherwise.
    // ~left is a shorthand for -left - 1.
    return found ? left : ~left;
>>
    The comparator receives the target first and the array element
    second.  [found] starts out undefined, which the final test reads as
    false. *)
Equations? binarySearch_ {T A} (arr : list A) (compareFn : T → A → Z)
    (target : T) (left_ right_ : nat) (found : bool) : outcome Z
    by wf (right_ - left_)%nat lt :=
  binarySearch_ arr compareFn target left_ right_ found with
      decide (left_ < right_)%nat := {
    | right _ :=
        Ok (if found then Z.of_nat left_ else Z.lnot (Z.of_nat left_));
    | left Hlt with at_index arr (Nat.div2 (left_ + right_)) := {
      | Throw e := Throw e;
      | Ok d with decide (0 < compareFn target d) := {
        | left _ :=
            binarySearch_ arr compareFn target
              (Nat.div2 (left_ + right_) + 1) right_ found;
        | right _ :=
            binarySearch_ arr compareFn target
              left_ (Nat.div2 (left_ + right_))
              (bool_decide (compareFn target d = 0)) } } }.
Proof.
  all: pose proof (Nat.div2_odd (left_ + right_));
    destruct (Nat.odd (left_ + right_)); simpl in *; lia.
Qed.

Definition binarySearch {T A} (arr : list A) (target : T)
    (compareFn : T → A → Z) : outcome Z :=
  binarySearch_ arr compareFn target 0 (length arr) false.

(** [Array.prototype.slice]: a negative bound counts from the end, both
    bounds are clamped to the length. *)
Definition relative_index (len i : Z) : Z :=
  if decide (i < 0) then Z.max (len + i) 0 else Z.min i len.

Definition slice {A} (arr : list A) (start end_ : Z) : list A :=
  let len := Z.of_nat (length arr) in
  let k := relative_index len start in
  let final := relative_index len end_ in
  take (Z.to_nat (final - k)) (drop (Z.to_nat k) arr).

End array.

(** ** goog.math.Range *)

Module Range.

Record t : Type := mk { start : Z; end_ : Z }.

(** [new goog.math.Range(a, b)]: the constructor orders its two arguments,
    [start] is the lower and [end] the higher one. *)
Definition new (a b : Z) : t :=
  {| start := if decide (a < b) then a else b;
     end_ := if decide (a < b) then b else a |}.

(** [goog.math.Range.hasIntersection]: the two closed ranges share a
    point. *)
Definition hasIntersection (a b : t) : bool :=
  bool_decide (Z.max (start a) (start b) ≤ Z.min (end_ a) (end_ b)).

End Range.

(** ** Numbers

    Time stamps are integers and are kept in [Z].  The other numeric values
    (readings, coordinates, byte counts) are binary64 numbers; they are
    modelled by their exact rational value, together with the three special
    values of IEEE-754 arithmetic.  Rounding and the sign of zero are not
    modelled. *)

Inductive number : Type :=
| Finite (q : Q)
| Infinity
| NegInfinity
| NaN.

Module Number.

Definition of_Z (z : Z) : number := Finite (inject_Z z).

Definition neg (a : number) : number :=
  match a with
  | Finite x => Finite (Qred (- x))
  | Infinity => NegInfinity
  | NegInfinity => Infinity
  | NaN => NaN
  end.

Definition add (a b : number) : number :=
  match a, b with
  | NaN, _ | _, NaN => NaN
  | Finite x, Finite y => Finite (Qred (x + y))
  | Infinity, NegInfinity | NegInfinity, Infinity => NaN
  | Infinity, _ | _, Infinity => Infinity
  | NegInfinity, _ | _, NegInfinity => NegInfinity
  end.

Definition sub (a b : number) : number := add a (neg b).

(** The sign of a number: [Some Lt], [Some Eq], [Some Gt], or [None] for
    [NaN]. *)
Definition sign (a : number) : option comparison :=
  match a with
  | Finite x => Some (x ?= 0)%Q
  | Infinity => Some Gt
  | NegInfinity => Some Lt
  | NaN => None
  end.

Definition signed_infinity (s t : comparison) : number :=
  match s, t with
  | Eq, _ | _, Eq => NaN
  | Gt, Gt | Lt, Lt => Infinity
  | _, _ => NegInfinity
  end.

Definition mul (a b : number) : number :=
  match a, b with
  | Finite x, Finite y => Finite (Qred (x * y))
  | _, _ =>
      match sign a, sign b with
      | Some s, Some t => signed_infinity s t
      | _, _ => NaN
      end
  end.

Definition div (a b : number) : number :=
  match a, b with
  | NaN, _ | _, NaN => NaN
  | Finite x, Finite y =>
      match (y ?= 0)%Q with
      | Eq => signed_infinity (x ?= 0)%Q Gt
      | _ => Finite (Qred (x / y))
      end
  | Finite _, _ => Finite 0
  | _, Finite y =>
      match sign a with
      | Some s => signed_infinity s (if (y ?= 0)%Q is Lt then Lt else Gt)
      | None => NaN
      end
  | _, _ => NaN
  end.

Definition abs (a : number) : number :=
  match a with
  | Finite x => Finite (Qabs x)
  | Infinity | NegInfinity => Infinity
  | NaN => NaN
  end.

(** Comparisons: every comparison with [NaN] is false. *)
Definition compare (a b : number) : option comparison :=
  match a, b with
  | NaN, _ | _, NaN => None
  | Finite x, Finite y => Some (x ?= y)%Q
  | Infinity, Infinity | NegInfinity, NegInfinity => Some Eq
  | Infinity, _ | _, NegInfinity => Some Gt
  | NegInfinity, _ | _, Infinity => Some Lt
  end.

Definition lt (a b : number) : bool :=
  if compare a b is Some Lt then true else false.
Definition gt (a b : number) : bool :=
  if compare a b is Some Gt then true else false.
Definition le (a b : number) : bool :=
  match compare a b with Some Lt | Some Eq => true | _ => false end.
Definition eq (a b : number) : bool :=
  if compare a b is Some Eq then true else false.

End Number.

(** ** historian.time *)

(** Modelled from the spec: the constants of [historian.time] (js/time.js is
    not among the sources): the numbers of milliseconds in a second and in
    an hour, of seconds in a minute and of minutes in an hour. *)
Module time.
Definition MSECS_IN_SEC : Z := 1000.
Definition SECS_IN_MIN : Z := 60.
Definition MINS_IN_HOUR : Z := 60.
Definition MSECS_IN_HOUR : Z := 3600000.
End time.

(** ** Data model *)

(** What the range filters read of an element: [historian.Entry] and
    [historian.AggregatedEntry] both carry the two time stamps. *)
Class Timed (A : Type) : Type := {
  startTime : A → Z;
  endTime : A → Z
}.

Record Entry : Type := mkEntry {
  entry_startTime : Z;
  entry_endTime : Z;
  value : number
}.

#[global] Instance Entry_Timed : Timed Entry :=
  {| startTime := entry_startTime; endTime := entry_endTime |}.

(** The object literals [{startTime: startTime}] and [{endTime: endTime}]
    that [inTimeRange] hands to the search as targets. *)
Record StartObj : Type := { startObj_startTime : Z }.
Record EndObj : Type := { endObj_endTime : Z }.

(** ** Time range queries *)

Section TimeRange.
Context {A : Type} `{Timed A}.

Definition inTimeRangeMulti (startTime_ endTime_ : Z) (data : list A)
    : list A :=
  let range := Range.new startTime_ endTime_ in
  List.filter (λ d,
      Range.hasIntersection range (Range.new (startTime d) (endTime d))
      && negb (bool_decide (endTime_ = startTime d))
      && negb (bool_decide (startTime_ = endTime d)))
    data.

(** The type of [array.binarySearch], the one library call of
    [inTimeRange] that can fail or loop. *)
Definition search_fn : Type :=
  ∀ T : Type, list A → T → (T → A → Z) → outcome Z.

Definition inTimeRangeWith (search : search_fn)
    (startTime_ endTime_ : Z) (data : list A) : outcome (list A) :=
  if array.isEmpty data then Ok []
  else
    (* Requesting range that comes after last end time of data range or
       before first start time of data range. *)
    outside ←
      (last_ ← at_index data (length data - 1);
       if bool_decide (startTime_ >= endTime last_) then Ok true
       else
         first ← at_index data 0;
         Ok (bool_decide (endTime_ ≤ startTime first)));
    if (outside : bool) then Ok []
    else
      let startObj := {| startObj_startTime := startTime_ |} in
      startIndex ← search StartObj data startObj
        (λ d1 d2, startObj_startTime d1 - startTime d2);
      let startIndex :=
        if decide (startIndex < 0) then
          (* If the start time was not found in the array, binarySearch
             returns the index it would have been inserted in, -1. *)
          let startIndex := - (startIndex + 1) in
          (* We want the element that is right before the insertion
             point. *)
          if decide (startIndex ≠ 0) then startIndex - 1 else startIndex
        else startIndex in
      let endObj := {| endObj_endTime := endTime_ |} in
      endIndex ← search EndObj data endObj
        (λ d1 d2, endObj_endTime d1 - endTime d2);
      let endIndex :=
        if decide (endIndex < 0) then - (endIndex + 1) else endIndex in
      Ok (array.slice data startIndex (endIndex + 1)).

Definition inTimeRange : Z → Z → list A → outcome (list A) :=
  inTimeRangeWith (λ T, @array.binarySearch T A).

End TimeRange.

(** ** goog.asserts and Array.prototype.forEach *)

Module asserts.

(** [goog.asserts.assert] with assertions enabled, as they are in
    uncompiled code. *)
Definition assert (condition : bool) (message : string) : outcome unit :=
  if condition then Ok ()
  else Throw (AssertionError ("Assertion failed: " +:+ message)).

End asserts.

(** [arr.forEach(callback)]: the callback receives the element and its
    index; [st] holds the variables of the enclosing function that the
    callback assigns to. *)
Fixpoint forEach_from {A St} (callback : A → nat → St → outcome St)
    (arr : list A) (i : nat) (st : St) : outcome St :=
  match arr with
  | [] => Ok st
  | d :: arr => st' ← callback d i st; forEach_from callback arr (S i) st'
  end.

Definition forEach {A St} (callback : A → nat → St → outcome St)
    (arr : list A) (st : St) : outcome St :=
  forEach_from callback arr 0 st.

(** ** Number.prototype.toFixed and goog.string.subs *)

(** The [f] digits after the decimal point of [r / 10^f]. *)
Fixpoint fraction_digits (f : nat) (r : N) : string :=
  match f with
  | O => ""
  | S f' => fraction_digits f' (r / 10)
            +:+ String (ascii_of_N (48 + r mod 10)) ""
  end.

(** [x.toFixed(fractionDigits)]: the decimal notation of the integer [n]
    for which [n / 10^f - x] is as close to zero as possible (the larger
    [n] on a tie), with a decimal point before its last [f] digits.  From
    [10^21] on, [toFixed] falls back on [Number::toString], whose digits
    depend on the binary representation: there the result is [None]. *)
Definition toFixed (x : number) (fractionDigits : nat) : option string :=
  match x with
  | NaN => Some "NaN"
  | Infinity => Some "Infinity"
  | NegInfinity => Some "-Infinity"
  | Finite q =>
      let s := if Qlt_le_dec q 0 then "-" else "" in
      let q := Qabs q in
      if Qlt_le_dec q (inject_Z (10 ^ 21)) then
        let scale := 10 ^ Z.of_nat fractionDigits in
        let n := Z.to_N (Qfloor (q * inject_Z scale + (1 # 2))%Q) in
        let m := pretty (n / Z.to_N scale)%N in
        Some (s +:+ (if decide (fractionDigits = 0%nat) then m
                     else m +:+ "." +:+
                          fraction_digits fractionDigits (n mod Z.to_N scale)))
      else None
  end.

(** [goog.string.subs(template, arg)] for the templates used here, which
    consist of ["%s"] and a suffix. *)
Definition subs_suffix (suffix : string) (arg : option string)
    : option string :=
  (λ a, a +:+ suffix) <$> arg.

(** ** Byte counts *)

Definition describeBytes (bytes : number) : option string :=
  let n1024 := Number.of_Z 1024 in
  if Number.lt bytes (Number.div n1024 (Number.of_Z 2)) then
    (* bytes < 0.5 KB *)
    subs_suffix " bytes" (toFixed bytes 2)
  else if Number.lt bytes
            (Number.div (Number.mul n1024 n1024) (Number.of_Z 2)) then
    (* 0.5 KB <= bytes < 0.5 MB *)
    subs_suffix " KB" (toFixed (Number.div bytes n1024) 2)
  else if Number.lt bytes
            (Number.div (Number.mul (Number.mul n1024 n1024) n1024)
               (Number.of_Z 2)) then
    (* 0.5 MB <= bytes < 0.5 GB *)
    subs_suffix " MB"
      (toFixed (Number.div bytes (Number.mul n1024 n1024)) 2)
  else
    (* bytes >= 0.5 GB *)
    subs_suffix " GB"
      (toFixed (Number.div bytes (Number.mul (Number.mul n1024 n1024) n1024))
         2).

(** ** Identifiers *)

Definition in_range (lo hi c : ascii) : bool :=
  bool_decide (nat_of_ascii lo ≤ nat_of_ascii c ≤ nat_of_ascii hi)%nat.

(** The class [[a-z0-9_\-]] under the flag [i]: a letter matches in either
    case.  A string is taken in its UTF-8 encoding, in which a character
    outside ASCII is a run of bytes from 128 on; none of them is in the
    class. *)
Definition in_class (c : ascii) : bool :=
  in_range "a" "z" c || in_range "A" "Z" c || in_range "0" "9" c
  || bool_decide (c = "_"%char) || bool_decide (c = "-"%char).

(** [str.replace(/[^a-z0-9_\-]/ig, '')] *)
Fixpoint remove_outside_class (str : string) : string :=
  match str with
  | EmptyString => EmptyString
  | String c str =>
      if in_class c then String c (remove_outside_class str)
      else remove_outside_class str
  end.

Definition ascii_lower (c : ascii) : ascii :=
  if in_range "A" "Z" c then ascii_of_nat (nat_of_ascii c + 32) else c.

Fixpoint map_string (f : ascii → ascii) (str : string) : string :=
  match str with
  | EmptyString => EmptyString
  | String c str => String (f c) (map_string f str)
  end.

Fixpoint all_ascii (str : string) : Prop :=
  match str with
  | EmptyString => True
  | String c str => (nat_of_ascii c < 128)%nat ∧ all_ascii str
  end.

Section ValidID.
(** [String.prototype.toLowerCase].  All that is used of it is its action
    on ASCII strings. *)
Variable toLowerCase : string → string.

Definition toValidID (str : string) : string :=
  toLowerCase (remove_outside_class str).

End ValidID.

(** ** Geometry *)

Definition point : Type := number * number.

Definition intersectLineSeg (a b c d : point) : bool :=
  let ab := (Number.sub b.1 a.1, Number.sub b.2 a.2) in
  let ac := (Number.sub c.1 a.1, Number.sub c.2 a.2) in
  let ad := (Number.sub d.1 a.1, Number.sub d.2 a.2) in
  let crosscb := Number.sub (Number.mul ac.2 ab.1) (Number.mul ac.1 ab.2) in
  let crossbd := Number.sub (Number.mul ab.2 ad.1) (Number.mul ab.1 ad.2) in
  let eps := Finite (1 # 1000000000) in
  if Number.le (Number.abs crosscb) eps || Number.le (Number.abs crossbd) eps
  then true
  else Number.gt (Number.mul crosscb crossbd) (Number.of_Z 0).

Definition intersectSegSeg (a b c d : point) : bool :=
  intersectLineSeg a b c d && intersectLineSeg c d a b.

(** ** Charge and derivative *)

Definition calculateTotalCharge (data : list Entry) : outcome number :=
  total ← forEach (λ d _ total,
      let durationMs := endTime d - startTime d in
      _ ← asserts.assert (bool_decide (durationMs >= 0))
            ("Negative duration: start=" +:+ pretty (startTime d)
             +:+ ", end=" +:+ pretty (endTime d));
      (* Since we're calculating it for only the visible data points, we
         might be missing readings from a particular second, so can't use a
         constant hz. *)
      let hz :=
        if decide (durationMs ≠ 0)
        then Number.div (Number.of_Z time.MSECS_IN_SEC) (Number.of_Z durationMs)
        else Number.of_Z 0 in
      Ok (Number.add total (Number.div (value d) hz)))
    data (Number.of_Z 0);
  (* After adding the mA readings per second, we calculate the mAh by
     dividing by the number of seconds in an hour. *)
  Ok (Number.div total
        (Number.mul (Number.of_Z time.SECS_IN_MIN)
           (Number.of_Z time.MINS_IN_HOUR))).

Definition calculateTotalChargeFormatted (data : list Entry)
    : outcome (option string) :=
  total ← calculateTotalCharge data;
  Ok (toFixed total 2).

Definition generateDerivative (data : list Entry) : outcome (list Entry) :=
  forEach (λ cur i derivative,
      if decide (Z.of_nat i = Z.of_nat (length data) - 1) then Ok derivative
      else
        next ← at_index data (i + 1);
        let dy := Number.sub (value next) (value cur) in
        let dx := Number.div (Number.of_Z (startTime next - startTime cur))
                    (Number.of_Z time.MSECS_IN_HOUR) in
        Ok (derivative ++
            [ {| entry_startTime := startTime cur;
                 entry_endTime := startTime next;
                 value := if Number.eq dx (Number.of_Z 0) then Number.of_Z 0
                          else Number.div dy dx |} ]))
    data [].

(** ** Charge and derivative as the specification states them *)

(** A time difference in hours and in seconds. *)
Definition hours (ms : Z) : number :=
  Number.div (Number.of_Z ms) (Number.of_Z time.MSECS_IN_HOUR).

Definition seconds (ms : Z) : number :=
  Number.div (Number.of_Z ms) (Number.of_Z time.MSECS_IN_SEC).

(** The entry for a pair of consecutive entries: it spans the two start
    times, and its value is 0 when they are equal and otherwise the value
    difference divided by the time difference in hours. *)
Definition rate_of_change (cur next : Entry) : Entry :=
  {| entry_startTime := startTime cur;
     entry_endTime := startTime next;
     value := if decide (startTime next = startTime cur) then Number.of_Z 0
              else Number.div (Number.sub (value next) (value cur))
                     (hours (startTime next - startTime cur)) |}.

Fixpoint consecutive_rates (data : list Entry) : list Entry :=
  match data with
  | [] => []
  | cur :: rest =>
      match rest with
      | [] => []
      | next :: _ => rate_of_change cur next :: consecutive_rates rest
      end
  end.

(** The sum over the entries of value times duration in seconds, divided by
    the number of seconds in an hour. *)
Definition total_charge_spec (data : list Entry) : number :=
  Number.div
    (fold_left (λ total d,
        Number.add total
          (Number.mul (value d) (seconds (endTime d - startTime d))))
      data (Number.of_Z 0))
    (Number.of_Z 3600).

(** ** Arrays and entries as objects

    To speak about what the queries share with their input and what they
    leave alone, arrays and entries are objects in a store: an array is a
    sequence of references to entries, and a query returns a reference to a
    newly allocated array. *)

Module Store.

Definition ref : Type := nat.

Record heap : Type := mkHeap {
  objects : ref → Entry;           (* the entry a reference denotes *)
  arrays : gmap ref (list ref)     (* the allocated arrays *)
}.

(** Reading [d.startTime] and [d.endTime] through a reference. *)
Definition Timed_ref (h : heap) : Timed ref :=
  {| startTime := λ r, startTime (objects h r);
     endTime := λ r, endTime (objects h r) |}.

Definition read_array (data : ref) (h : heap) : outcome (list ref) :=
  match arrays h !! data with
  | Some arr => Ok arr
  | None => Throw TypeError
  end.

(** A new array object. *)
Definition alloc (arr : list ref) (h : heap) : ref * heap :=
  let r := fresh (dom (arrays h)) in
  (r, {| objects := objects h; arrays := <[r := arr]> (arrays h) |}).

Definition inTimeRangeMulti (startTime_ endTime_ : Z) (data : ref)
    (h : heap) : outcome (ref * heap) :=
  arr ← read_array data h;
  Ok (alloc (@inTimeRangeMulti ref (Timed_ref h) startTime_ endTime_ arr) h).

Definition inTimeRange (startTime_ endTime_ : Z) (data : ref)
    (h : heap) : outcome (ref * heap) :=
  arr ← read_array data h;
  result ← @inTimeRange ref (Timed_ref h) startTime_ endTime_ arr;
  Ok (alloc result h).

(** What a call leaves alone: [r] is a new array, every entry object is as
    it was, and so is every array other than [r]. *)
Definition preserved (h h' : heap) (r : ref) : Prop :=
  arrays h !! r = None
  ∧ objects h' = objects h
  ∧ ∀ l, l ≠ r → arrays h' !! l = arrays h !! l.

End Store.

(** ** Preconditions on the data *)

Section Ordering.
Context {A : Type} `{Timed A}.

(** [P] holds of every element and [R] of every two neighbours. *)
Fixpoint chain (P : A → Prop) (R : A → A → Prop) (data : list A) : Prop :=
  match data with
  | [] => True
  | d :: rest =>
      P d ∧ match rest with [] => True | d' :: _ => R d d' end
      ∧ chain P R rest
  end.

(** The documented ordering invariant: no entry ends before it starts,
    and each entry's [endTime] equals or precedes the next entry's
    [startTime] (so the sequence is sorted by [startTime] and no two
    entries overlap). *)
Definition ordered : list A → Prop :=
  chain (λ d, startTime d ≤ endTime d) (λ d d', endTime d ≤ startTime d').

(** Gapless data: every entry lasts some time, and each entry ends exactly
    where the next one starts. *)
Definition gapless : list A → Prop :=
  chain (λ d, startTime d < endTime d) (λ d d', endTime d = startTime d').

(** Step 2 of the range query: the query lies entirely after or entirely
    before the span of the data. *)
Definition outside_span (queryStart queryEnd : Z) (data : list A) : Prop :=
  match head data, last data with
  | Some first, Some last_ =>
      queryStart >= endTime last_ ∨ queryEnd <= startTime first
  | _, _ => False
  end.

End Ordering.

(** ** What the search computes *)

Section SearchFacts.
Context {T A : Type} (compareFn : T → A → Z) (target : T).
Implicit Types arr : list A.

(** The number of leading elements that compare below the target. *)
Fixpoint lower_bound arr : nat :=
  match arr with
  | [] => 0
  | d :: arr => if decide (0 < compareFn target d) then S (lower_bound arr)
                else 0
  end.

Definition found_at arr (i : nat) : bool :=
  match arr !! i with
  | Some d => bool_decide (compareFn target d = 0)
  | None => false
  end.

(** The array is ordered consistently with the comparator: the result of
    comparing the target with an element does not grow along the array. *)
Definition consistent arr : Prop :=
  ∀ i j x y, (i ≤ j)%nat → arr !! i = Some x → arr !! j = Some y →
    compareFn target y ≤ compareFn target x.

End SearchFacts.

Definition sorted_by {A} (key : A → Z) (data : list A) : Prop :=
  ∀ i j x y, (i ≤ j)%nat → data !! i = Some x → data !! j = Some y →
    key x ≤ key y.

(** ** The range query as the specification describes it *)

Section SearchSpec.
Context {A : Type} (key : A → Z) (t : Z).

(** The position of an exact match: the first element whose key is [t]. *)
Fixpoint exact_match (data : list A) : option nat :=
  match data with
  | [] => None
  | d :: data => if decide (key d = t) then Some 0%nat
                 else S <$> exact_match data
  end.

(** The insertion index: the index at which [t] would be inserted into the
    sorted sequence to preserve order, i.e. the number of keys below [t]. *)
Definition insertion_index (data : list A) : nat :=
  length (List.filter (λ d, bool_decide (key d < t)) data).

End SearchSpec.

Section FilterSpec.
Context {A : Type} `{Timed A}.

(** Step 3: search by [startTime]; on a miss, step back from the insertion
    index unless it is 0. *)
Definition spec_startIndex (queryStart : Z) (data : list A) : nat :=
  match exact_match startTime queryStart data with
  | Some i => i
  | None =>
      let k := insertion_index startTime queryStart data in
      if decide (k = 0%nat) then 0%nat else (k - 1)%nat
  end.

(** Step 4: search by [endTime]; on a miss, the insertion index itself. *)
Definition spec_endIndex (queryEnd : Z) (data : list A) : nat :=
  match exact_match endTime queryEnd data with
  | Some j => j
  | None => insertion_index endTime queryEnd data
  end.

(** Step 5: the elements at the indices [startIndex .. endIndex], the end
    index included. *)
Definition spec_filter (queryStart queryEnd : Z) (data : list A) : list A :=
  let startIndex := spec_startIndex queryStart data in
  let endIndex := spec_endIndex queryEnd data in
  take (endIndex + 1 - startIndex) (drop startIndex data).

End FilterSpec.

(** The data of the concrete scenario; the readings play no role. *)
Definition scenario (v0 v1 v2 : number) : list Entry :=
  [mkEntry 0 10 v0; mkEntry 10 20 v1; mkEntry 20 30 v2].

(** An entry with the given time stamps and a reading of 0. *)
Definition interval (s e : Z) : Entry := mkEntry s e (Finite 0).

(** The characters an identifier is made of: [[a-z0-9_-]]. *)
Definition is_id_char (c : ascii) : bool :=
  in_range "a" "z" c || in_range "0" "9" c
  || bool_decide (c = "_"%char) || bool_decide (c = "-"%char).

Fixpoint all_id_chars (str : string) : Prop :=
  match str with
  | EmptyString => True
  | String c str => is_id_char c = true ∧ all_id_chars str
  end.

(** ** Points with finite coordinates *)




(** ** Padding *)

Module googString.

(** [goog.string.repeat(string, length)]: [length] copies of [string], one
    after the other. *)
Fixpoint repeat {C} (str : list C) (length : nat) : list C :=
  match length with
  | O => []
  | S n => str ++ repeat str n
  end.

End googString.

(** [padString] only measures and concatenates, so a string is taken as the
    sequence of its code units, of whatever type [C]; [len] is a finite
    number, not necessarily an integer. *)
Definition padString {C} (str : list C) (len : Q) (chr : list C) : list C :=
  let padding :=
    if Qlt_le_dec (inject_Z (Z.of_nat (length str))) len
    then googString.repeat chr
           (Z.to_nat (Qfloor (len - inject_Z (Z.of_nat (length str)))))
    else [] in
  str ++ padding.

(** * Properties *)

(** ** The search loop *)

Section BinarySearch.
Context {T A : Type} (compareFn : T → A → Z) (target : T).
Implicit Types arr : list A.

Local Abbreviation lower_bound := (lower_bound compareFn target).
Local Abbreviation found_at := (found_at compareFn target).
Local Abbreviation consistent := (consistent compareFn target).

Lemma lower_bound_le arr : (lower_bound arr ≤ length arr)%nat.
Proof. induction arr; simpl; [lia|]. case_decide; lia. Qed.

Lemma lower_bound_below arr i d :
  (i < lower_bound arr)%nat → arr !! i = Some d → 0 < compareFn target d.
Proof.
  revert i. induction arr as [|x arr IH]; simpl; intros i Hi Hd; [lia|].
  case_decide; [|lia].
  destruct i as [|i]; simpl in Hd; [congruence|].
  apply (IH i); [lia|done].
Qed.

Lemma lower_bound_at arr d :
  arr !! lower_bound arr = Some d → compareFn target d ≤ 0.
Proof.
  induction arr as [|x arr IH]; simpl; [done|].
  case_decide; simpl; [done|]. intros [= ->]. lia.
Qed.

Lemma lower_bound_unique arr n :
  (n ≤ length arr)%nat →
  (∀ i d, (i < n)%nat → arr !! i = Some d → 0 < compareFn target d) →
  (∀ d, arr !! n = Some d → compareFn target d ≤ 0) →
  lower_bound arr = n.
Proof.
  revert n. induction arr as [|x arr IH]; simpl; intros n Hn Hlo Hhi.
  - lia.
  - case_decide as Hx.
    + destruct n as [|n].
      * specialize (Hhi x eq_refl). lia.
      * f_equal. apply IH; [lia| |].
        -- intros i d Hi. apply (Hlo (S i)). lia.
        -- intros d. apply (Hhi d).
    + destruct n as [|n]; [done|].
      specialize (Hlo 0%nat x). simpl in Hlo.
      exfalso. apply Hx, Hlo; [lia|done].
Qed.

Lemma lower_bound_above arr i d :
  consistent arr →
  (lower_bound arr ≤ i)%nat → arr !! i = Some d → compareFn target d ≤ 0.
Proof.
  intros Hc Hi Hd.
  destruct (arr !! lower_bound arr) as [x|] eqn:Hx.
  - pose proof (lower_bound_at _ _ Hx). pose proof (Hc _ _ _ _ Hi Hx Hd). lia.
  - apply lookup_ge_None in Hx. apply lookup_lt_Some in Hd. lia.
Qed.

Lemma middle_bounds (left_ right_ : nat) :
  (left_ < right_)%nat →
  (left_ ≤ Nat.div2 (left_ + right_) < right_)%nat.
Proof.
  intros ?. pose proof (Nat.div2_odd (left_ + right_)).
  destruct (Nat.odd (left_ + right_)); simpl in *; lia.
Qed.

(** The loop invariant: everything left of [left_] is below the target,
    nothing from [right_] on is, and [found] tells whether the element at
    [right_] matches. *)
Lemma binarySearch__invariant arr left_ right_ found :
  consistent arr →
  (left_ ≤ right_ ≤ length arr)%nat →
  (∀ i d, (i < left_)%nat → arr !! i = Some d → 0 < compareFn target d) →
  (∀ i d, (right_ ≤ i)%nat → arr !! i = Some d → compareFn target d ≤ 0) →
  found = found_at arr right_ →
  array.binarySearch_ arr compareFn target left_ right_ found =
    Ok (if found_at arr (lower_bound arr)
        then Z.of_nat (lower_bound arr)
        else Z.lnot (Z.of_nat (lower_bound arr))).
Proof.
  intros Hc.
  funelim (array.binarySearch_ arr compareFn target left_ right_ found);
    intros Hlr Hlo Hhi Hfound.
  - (* the loop is left *)
    assert (left_ = right_) as -> by lia.
    rewrite (lower_bound_unique arr right_); [by rewrite Hfound|lia|exact Hlo|].
    intros d. by apply Hhi.
  - (* arr[middle] is undefined: impossible *)
    exfalso. pose proof (middle_bounds _ _ Hlt) as Hmid.
    unfold at_index in *.
    destruct (arr !! Nat.div2 (left_ + right_)) as [x|] eqn:Hx; [done|].
    apply lookup_ge_None in Hx. lia.
  - (* compareResult > 0 *)
    pose proof (middle_bounds _ _ Hlt) as Hmid.
    unfold at_index in *.
    destruct (arr !! Nat.div2 (left_ + right_)) as [x|] eqn:Hx; [|done].
    simplify_eq.
    match goal with IH : consistent _ → _ |- _ => apply IH end;
      try done; [lia|].
    intros i y Hi Hy.
    assert (i ≤ Nat.div2 (left_ + right_))%nat as Hle by lia.
    pose proof (Hc _ _ _ _ Hle Hy Hx). lia.
  - (* compareResult <= 0 *)
    pose proof (middle_bounds _ _ Hlt) as Hmid.
    unfold at_index in *.
    destruct (arr !! Nat.div2 (left_ + right_)) as [x|] eqn:Hx; [|done].
    simplify_eq.
    match goal with IH : consistent _ → _ |- _ => apply IH end;
      try done; [lia| |].
    + intros i y Hi Hy. pose proof (Hc _ _ _ _ Hi Hx Hy). lia.
    + unfold found_at. by rewrite Hx.
Qed.

End BinarySearch.

Lemma binarySearch_consistent {T A} (compareFn : T → A → Z) target arr :
  consistent compareFn target arr →
  array.binarySearch arr target compareFn =
    Ok (if found_at compareFn target arr (lower_bound compareFn target arr)
        then Z.of_nat (lower_bound compareFn target arr)
        else Z.lnot (Z.of_nat (lower_bound compareFn target arr))).
Proof.
  intros Hc. unfold array.binarySearch.
  apply binarySearch__invariant; [done|lia| | |].
  - intros i d Hi. lia.
  - intros i d Hi Hd. apply lookup_lt_Some in Hd. lia.
  - unfold found_at. by rewrite (proj2 (lookup_ge_None _ _)).
Qed.

(** The search returns on every array, sorted or not. *)
Lemma binarySearch__returns {T A} (compareFn : T → A → Z) target arr
    left_ right_ found :
  (right_ ≤ length arr)%nat →
  ∃ z, array.binarySearch_ arr compareFn target left_ right_ found = Ok z.
Proof.
  funelim (array.binarySearch_ arr compareFn target left_ right_ found);
    intros Hr.
  - eauto.
  - exfalso. pose proof (middle_bounds _ _ Hlt) as Hmid.
    unfold at_index in *.
    destruct (arr !! Nat.div2 (left_ + right_)) as [x|] eqn:Hx; [done|].
    apply lookup_ge_None in Hx. lia.
  - match goal with IH : _ → ∃ z, _ |- _ => apply IH end. lia.
  - pose proof (middle_bounds _ _ Hlt) as Hmid.
    match goal with IH : _ → ∃ z, _ |- _ => apply IH end. lia.
Qed.

Lemma binarySearch_returns {T A} (compareFn : T → A → Z) target arr :
  ∃ z, array.binarySearch arr target compareFn = Ok z.
Proof. by apply binarySearch__returns. Qed.

(** On a sequence sorted by [key], the loop finds what the linear
    definitions [exact_match] and [insertion_index] describe. *)
Section SortedSearch.
Context {T A : Type} (compareFn : T → A → Z) (target : T).
Context (key : A → Z) (t : Z).
Hypothesis compareFn_key : ∀ d, compareFn target d = t - key d.

Lemma sorted_by_consistent data :
  sorted_by key data → consistent compareFn target data.
Proof.
  intros Hs i j x y Hij Hx Hy. rewrite !compareFn_key.
  pose proof (Hs _ _ _ _ Hij Hx Hy). lia.
Qed.

Lemma sorted_by_tail d data : sorted_by key (d :: data) → sorted_by key data.
Proof.
  intros Hs i j x y Hij Hx Hy. apply (Hs (S i) (S j)); [lia|done..].
Qed.

Lemma sorted_by_head d data y :
  sorted_by key (d :: data) → y ∈ data → key d ≤ key y.
Proof.
  intros Hs [j Hj]%list_elem_of_lookup.
  apply (Hs 0%nat (S j)); [lia|done..].
Qed.

Lemma insertion_index_0 data :
  (∀ y, y ∈ data → t ≤ key y) → insertion_index key t data = 0%nat.
Proof.
  unfold insertion_index.
  induction data as [|d data IH]; simpl; intros Hall; [done|].
  rewrite bool_decide_eq_false_2.
  - apply IH. intros y Hy. apply Hall. by right.
  - pose proof (Hall d ltac:(left)). lia.
Qed.

Lemma exact_match_None data :
  (∀ y, y ∈ data → key y ≠ t) → exact_match key t data = None.
Proof.
  induction data as [|d data IH]; simpl; intros Hall; [done|].
  case_decide as Hd.
  - by destruct (Hall d ltac:(left)).
  - rewrite IH; [done|]. intros y Hy. apply Hall. by right.
Qed.

Lemma lower_bound_insertion_index data :
  sorted_by key data →
  lower_bound compareFn target data = insertion_index key t data.
Proof.
  induction data as [|d data IH]; simpl; intros Hs; [done|].
  rewrite compareFn_key. unfold insertion_index. simpl.
  case_decide as Hd.
  - rewrite bool_decide_eq_true_2 by lia. simpl. f_equal.
    apply IH. by eapply sorted_by_tail.
  - rewrite bool_decide_eq_false_2 by lia. symmetry.
    apply insertion_index_0. intros y Hy.
    pose proof (sorted_by_head _ _ _ Hs Hy). lia.
Qed.

Lemma exact_match_lower_bound data :
  sorted_by key data →
  exact_match key t data =
    if found_at compareFn target data (lower_bound compareFn target data)
    then Some (lower_bound compareFn target data) else None.
Proof.
  induction data as [|d data IH]; simpl; intros Hs; [done|].
  rewrite compareFn_key.
  destruct (decide (0 < t - key d)) as [Hd|Hd].
  - rewrite decide_False by lia. rewrite IH by (by eapply sorted_by_tail).
    unfold found_at. simpl.
    by destruct (data !! _) as [x|]; simpl; [destruct (bool_decide _)|].
  - unfold found_at. simpl. rewrite compareFn_key.
    destruct (decide (key d = t)) as [Hd'|Hd'].
    + by rewrite bool_decide_eq_true_2 by lia.
    + rewrite bool_decide_eq_false_2 by lia.
      rewrite exact_match_None; [done|]. intros y Hy.
      pose proof (sorted_by_head _ _ _ Hs Hy). lia.
Qed.

(** The contract of [goog.array.binarySearch]: the lowest index of the
    target if found, otherwise [-(insertion point) - 1]. *)
Lemma binarySearch_sorted data :
  sorted_by key data →
  array.binarySearch data target compareFn =
    Ok (match exact_match key t data with
        | Some i => Z.of_nat i
        | None => - Z.of_nat (insertion_index key t data) - 1
        end).
Proof.
  intros Hs. rewrite binarySearch_consistent by (by apply sorted_by_consistent).
  rewrite (exact_match_lower_bound data Hs).
  rewrite <-(lower_bound_insertion_index data Hs).
  destruct (found_at _ _ _ _); [done|]. f_equal; unfold Z.lnot; lia.
Qed.

End SortedSearch.

(** ** Slices *)

Lemma slice_take_drop {A} (arr : list A) (a b : nat) :
  array.slice arr (Z.of_nat a) (Z.of_nat b) = take (b - a) (drop a arr).
Proof.
  unfold array.slice, array.relative_index.
  rewrite !decide_False by lia.
  destruct (decide (length arr ≤ a)%nat) as [Ha|Ha].
  - rewrite !drop_ge by lia. by rewrite !take_nil.
  - replace (Z.to_nat (Z.of_nat a `min` Z.of_nat (length arr))) with a by lia.
    destruct (decide (b ≤ length arr)%nat) as [Hb|Hb].
    + f_equal. lia.
    + rewrite !take_ge; [done|rewrite length_drop; lia..].
Qed.

(** ** Ordered data *)

Section OrderingFacts.
Context {A : Type} `{Timed A}.
Implicit Types data : list A.

Lemma chain_tail P R d data : chain P R (d :: data) → chain P R data.
Proof. simpl. tauto. Qed.

Lemma chain_lookup P R data i d :
  chain P R data → data !! i = Some d → P d.
Proof.
  revert i. induction data as [|x data IH]; intros i Hc Hd; [done|].
  destruct i as [|i]; simpl in *.
  - simplify_eq. tauto.
  - apply (IH i); tauto.
Qed.

Lemma chain_next P R data i d d' :
  chain P R data → data !! i = Some d → data !! S i = Some d' → R d d'.
Proof.
  revert i. induction data as [|x data IH]; intros i Hc Hd Hd'; [done|].
  destruct i as [|i]; simpl in *.
  - destruct data; simplify_eq/=. tauto.
  - apply (IH i); tauto.
Qed.

Lemma chain_impl (P Q : A → Prop) (R S : A → A → Prop) data :
  (∀ d, P d → Q d) → (∀ d d', R d d' → S d d') →
  chain P R data → chain Q S data.
Proof.
  intros HP HR. induction data as [|x data IH]; simpl; [done|].
  intros (? & ? & ?). split_and!; [auto| |auto].
  destruct data; auto.
Qed.

Lemma gapless_ordered data : gapless data → ordered data.
Proof. apply chain_impl; intros; lia. Qed.

Lemma ordered_before data i k x y :
  ordered data → data !! i = Some x → data !! (i + S k)%nat = Some y →
  endTime x ≤ startTime y.
Proof.
  intros Ho Hx. revert y. induction k as [|k IH]; intros y Hy.
  - apply (chain_next _ _ _ _ _ _ Ho Hx).
    by replace (S i) with (i + 1)%nat by lia.
  - destruct (data !! (i + S k)%nat) as [z|] eqn:Hz.
    + pose proof (IH z eq_refl).
      pose proof (chain_lookup _ _ _ _ _ Ho Hz) as Hzz. simpl in Hzz.
      replace (i + S (S k))%nat with (S (i + S k)) in Hy by lia.
      pose proof (chain_next _ _ _ _ _ _ Ho Hz Hy) as Hzy. simpl in Hzy.
      lia.
    + apply lookup_ge_None in Hz. apply lookup_lt_Some in Hy. lia.
Qed.

Lemma ordered_sorted_startTime data : ordered data → sorted_by startTime data.
Proof.
  intros Ho i j x y Hij Hx Hy.
  destruct (decide (i = j)) as [->|Hne]; [by simplify_eq|].
  replace j with (i + S (j - i - 1))%nat in Hy by lia.
  pose proof (ordered_before _ _ _ _ _ Ho Hx Hy).
  pose proof (chain_lookup _ _ _ _ _ Ho Hx) as Hxx. simpl in Hxx. lia.
Qed.

Lemma ordered_sorted_endTime data : ordered data → sorted_by endTime data.
Proof.
  intros Ho i j x y Hij Hx Hy.
  destruct (decide (i = j)) as [->|Hne]; [by simplify_eq|].
  pose proof (chain_lookup _ _ _ _ _ Ho Hy) as Hyy. simpl in Hyy.
  replace j with (i + S (j - i - 1))%nat in Hy by lia.
  pose proof (ordered_before _ _ _ _ _ Ho Hx Hy). lia.
Qed.

End OrderingFacts.

(** ** The range query *)

Section TimeRangeFacts.
Context {A : Type} `{Timed A}.
Implicit Types data : list A.

Lemma at_index_Ok data i d : data !! i = Some d → at_index data i = Ok d.
Proof. unfold at_index. by intros ->. Qed.

(** The query on non-empty data: the fast rejection, then the searches. *)
Lemma inTimeRangeWith_nonempty search s e data first last_ :
  head data = Some first → last data = Some last_ →
  inTimeRangeWith search s e data =
    if bool_decide (s >= endTime last_) || bool_decide (e ≤ startTime first)
    then Ok []
    else
      startIndex ← search StartObj data {| startObj_startTime := s |}
        (λ d1 d2, startObj_startTime d1 - startTime d2);
      endIndex ← search EndObj data {| endObj_endTime := e |}
        (λ d1 d2, endObj_endTime d1 - endTime d2);
      Ok (array.slice data
            (if decide (startIndex < 0) then
               if decide (- (startIndex + 1) ≠ 0)
               then - (startIndex + 1) - 1 else - (startIndex + 1)
             else startIndex)
            ((if decide (endIndex < 0) then - (endIndex + 1) else endIndex)
             + 1)).
Proof.
  intros Hfirst Hlast. unfold inTimeRangeWith, array.isEmpty.
  destruct data as [|d data]; [done|].
  rewrite bool_decide_eq_false_2 by done.
  rewrite last_lookup in Hlast. rewrite head_lookup in Hfirst.
  replace (length (d :: data) - 1)%nat with (pred (length (d :: data)))
    by lia.
  rewrite (at_index_Ok _ _ _ Hlast), (at_index_Ok _ _ _ Hfirst).
  simpl mbind at 1. unfold mbind at 1, outcome_bind at 1.
  by destruct (bool_decide (s >= _)); simpl; [|destruct (bool_decide _)].
Qed.

Lemma outside_span_decide s e data first last_ :
  head data = Some first → last data = Some last_ →
  outside_span s e data ↔
  bool_decide (s >= endTime last_) || bool_decide (e ≤ startTime first)
    = true.
Proof.
  intros Hf Hl. unfold outside_span. rewrite Hf, Hl.
  rewrite orb_true_iff, !bool_decide_eq_true. lia.
Qed.

Lemma nonempty_head_last data :
  data ≠ [] → ∃ first last_, head data = Some first ∧ last data = Some last_.
Proof.
  intros Hne. destruct data as [|d data]; [done|].
  destruct (last_is_Some (d :: data)) as [_ [l Hl]]; [done|]. eauto.
Qed.

End TimeRangeFacts.

Section TimeRangeSearch.
Context {A : Type} `{Timed A}.
Implicit Types data : list A.

Lemma search_startTime s data :
  ordered data →
  array.binarySearch data {| startObj_startTime := s |}
    (λ d1 d2, startObj_startTime d1 - startTime d2) =
  Ok (match exact_match startTime s data with
      | Some i => Z.of_nat i
      | None => - Z.of_nat (insertion_index startTime s data) - 1
      end).
Proof.
  intros Ho. apply binarySearch_sorted; [done|].
  by apply ordered_sorted_startTime.
Qed.

Lemma search_endTime e data :
  ordered data →
  array.binarySearch data {| endObj_endTime := e |}
    (λ d1 d2, endObj_endTime d1 - endTime d2) =
  Ok (match exact_match endTime e data with
      | Some i => Z.of_nat i
      | None => - Z.of_nat (insertion_index endTime e data) - 1
      end).
Proof.
  intros Ho. apply binarySearch_sorted; [done|].
  by apply ordered_sorted_endTime.
Qed.

(** The index arithmetic that follows each search. *)
Lemma startIndex_found (i : nat) :
  (if decide (Z.of_nat i < 0) then
     if decide (- (Z.of_nat i + 1) ≠ 0)
     then - (Z.of_nat i + 1) - 1 else - (Z.of_nat i + 1)
   else Z.of_nat i) = Z.of_nat i.
Proof. by rewrite decide_False by lia. Qed.

Lemma startIndex_missed (k : nat) :
  (if decide (- Z.of_nat k - 1 < 0) then
     if decide (- (- Z.of_nat k - 1 + 1) ≠ 0)
     then - (- Z.of_nat k - 1 + 1) - 1 else - (- Z.of_nat k - 1 + 1)
   else - Z.of_nat k - 1)
  = Z.of_nat (if decide (k = 0%nat) then 0 else k - 1).
Proof. repeat case_decide; lia. Qed.

Lemma endIndex_found (j : nat) :
  (if decide (Z.of_nat j < 0) then - (Z.of_nat j + 1) else Z.of_nat j) + 1
  = Z.of_nat (j + 1).
Proof. case_decide; lia. Qed.

Lemma endIndex_missed (j : nat) :
  (if decide (- Z.of_nat j - 1 < 0) then - (- Z.of_nat j - 1 + 1)
   else - Z.of_nat j - 1) + 1
  = Z.of_nat (j + 1).
Proof. case_decide; lia. Qed.

Lemma inTimeRange_ordered s e data :
  data ≠ [] → ordered data → ¬ outside_span s e data →
  inTimeRange s e data = Ok (spec_filter s e data).
Proof.
  intros Hne Ho Hout.
  destruct (nonempty_head_last data Hne) as (first & last_ & Hf & Hl).
  unfold inTimeRange. rewrite (inTimeRangeWith_nonempty _ _ _ _ _ _ Hf Hl).
  rewrite (outside_span_decide _ _ _ _ _ Hf Hl) in Hout.
  apply not_true_is_false in Hout. rewrite Hout.
  rewrite search_startTime, search_endTime by done. simpl.
  unfold spec_filter, spec_startIndex, spec_endIndex. f_equal.
  destruct (exact_match startTime s data) as [i|];
    destruct (exact_match endTime e data) as [j|];
    rewrite ?startIndex_found, ?startIndex_missed,
      ?endIndex_found, ?endIndex_missed;
    apply slice_take_drop.
Qed.

End TimeRangeSearch.

(** ** Gapless data: the slice is the set of overlapping entries *)

Lemma filter_window {A} (f : A → bool) (data : list A) (a b : nat) :
  (∀ i d, data !! i = Some d → (f d = true ↔ (a ≤ i < b)%nat)) →
  List.filter f data = take (b - a) (drop a data).
Proof.
  revert a b. induction data as [|x data IH]; intros a b Hf.
  - by rewrite drop_nil, take_nil.
  - simpl. pose proof (Hf 0%nat x eq_refl) as Hx.
    destruct a as [|a].
    + destruct b as [|b].
      * destruct (f x); [lia|]. rewrite (IH 0%nat 0%nat); [by rewrite take_0|].
        intros i d Hd. rewrite (Hf (S i) d Hd). lia.
      * rewrite (proj2 Hx) by lia. simpl. f_equal.
        rewrite (IH 0%nat b); [by rewrite Nat.sub_0_r|].
        intros i d Hd. rewrite (Hf (S i) d Hd). lia.
    + destruct (f x); [lia|]. simpl.
      rewrite (IH a (b - 1)%nat).
      * f_equal. lia.
      * intros i d Hd. rewrite (Hf (S i) d Hd). lia.
Qed.

Section Gapless.
Context {A : Type} `{Timed A}.
Implicit Types data : list A.

Local Abbreviation cmp key := (λ (t : Z) (d : A), t - key d).

Lemma spec_startIndex_lower_bound s data :
  ordered data →
  spec_startIndex s data =
    let lb := lower_bound (cmp startTime) s data in
    if found_at (cmp startTime) s data lb then lb
    else if decide (lb = 0%nat) then 0%nat else (lb - 1)%nat.
Proof.
  intros Ho%ordered_sorted_startTime. unfold spec_startIndex.
  rewrite (exact_match_lower_bound (cmp startTime) s startTime s) by done.
  rewrite <-(lower_bound_insertion_index (cmp startTime) s startTime s)
    by done.
  simpl. by destruct (found_at _ _ _ _).
Qed.

Lemma spec_endIndex_lower_bound e data :
  ordered data →
  spec_endIndex e data = lower_bound (cmp endTime) e data.
Proof.
  intros Ho%ordered_sorted_endTime. unfold spec_endIndex.
  rewrite (exact_match_lower_bound (cmp endTime) e endTime e) by done.
  rewrite <-(lower_bound_insertion_index (cmp endTime) e endTime e) by done.
  by destruct (found_at _ _ _ _).
Qed.

Lemma gapless_startTime_lt data i j x y :
  gapless data → (i < j)%nat → data !! i = Some x → data !! j = Some y →
  startTime x < startTime y.
Proof.
  intros Hg Hij Hx Hy.
  pose proof (chain_lookup _ _ _ _ _ Hg Hx) as Hxx. simpl in Hxx.
  replace j with (i + S (j - i - 1))%nat in Hy by lia.
  pose proof (ordered_before _ _ _ _ _ (gapless_ordered _ Hg) Hx Hy). lia.
Qed.

(** An entry ends after [s] exactly when it is at or after the start
    index. *)
Lemma startIndex_window s data last_ i d :
  gapless data → last data = Some last_ → s < endTime last_ →
  data !! i = Some d →
  s < endTime d ↔ (spec_startIndex s data ≤ i)%nat.
Proof.
  intros Hg Hl Hs Hd.
  pose proof (gapless_ordered _ Hg) as Ho.
  pose proof (ordered_sorted_startTime _ Ho) as Hsorted.
  pose proof (sorted_by_consistent (cmp startTime) s startTime s
                (λ _, eq_refl) _ Hsorted) as Hc.
  rewrite spec_startIndex_lower_bound by done. simpl.
  set (lb := lower_bound (cmp startTime) s data).
  pose proof (lower_bound_le (cmp startTime) s data) as Hlb. fold lb in Hlb.
  pose proof (lookup_lt_Some _ _ _ Hd) as Hi.
  assert (∀ x, data !! lb = Some x →
    if found_at (cmp startTime) s data lb then startTime x = s
    else s < startTime x) as Hat.
  { intros x Hx. unfold found_at. rewrite Hx.
    pose proof (lower_bound_at (cmp startTime) s data x Hx) as Hle.
    simpl in Hle. case_bool_decide; lia. }
  assert (found_at (cmp startTime) s data lb = true → (lb < length data)%nat)
    as Hfound.
  { unfold found_at. destruct (data !! lb) eqn:Hx; [|done].
    intros _. by eapply lookup_lt_Some. }
  destruct (data !! S i) as [d'|] eqn:Hd'.
  - (* the entry ends where the next one starts *)
    pose proof (chain_next _ _ _ _ _ _ Hg Hd Hd') as Heq. simpl in Heq.
    rewrite Heq.
    destruct (decide (S i < lb)%nat) as [Hlt|Hge].
    { pose proof (lower_bound_below (cmp startTime) s data _ _ Hlt Hd').
      destruct (found_at _ _ _ _); [|case_decide]; lia. }
    destruct (decide (S i = lb)) as [Heqi|Hne].
    { assert (data !! lb = Some d') as Hlb' by by rewrite <-Heqi.
      specialize (Hat d' Hlb').
      destruct (found_at _ _ _ _); [|case_decide]; lia. }
    destruct (data !! lb) as [x|] eqn:Hx.
    + specialize (Hat x eq_refl).
      pose proof (gapless_startTime_lt data lb (S i) x d' Hg
                    ltac:(lia) Hx Hd').
      destruct (found_at _ _ _ _); [|case_decide]; lia.
    + apply lookup_ge_None in Hx. apply lookup_lt_Some in Hd'. lia.
  - (* the last entry *)
    apply lookup_ge_None in Hd'. rewrite last_lookup in Hl.
    replace (pred (length data)) with i in Hl by lia.
    assert (d = last_) as -> by congruence.
    destruct (found_at _ _ _ _); [|case_decide]; lia.
Qed.

(** An entry starts before [e] exactly when it is at or before the end
    index. *)
Lemma endIndex_window e data first i d :
  gapless data → head data = Some first → startTime first < e →
  data !! i = Some d →
  startTime d < e ↔ (i ≤ spec_endIndex e data)%nat.
Proof.
  intros Hg Hf He Hd.
  pose proof (gapless_ordered _ Hg) as Ho.
  pose proof (ordered_sorted_endTime _ Ho) as Hsorted.
  pose proof (sorted_by_consistent (cmp endTime) e endTime e
                (λ _, eq_refl) _ Hsorted) as Hc.
  rewrite spec_endIndex_lower_bound by done.
  set (lb := lower_bound (cmp endTime) e data).
  destruct i as [|i].
  - rewrite head_lookup in Hf. assert (d = first) as -> by congruence. lia.
  - destruct (data !! i) as [d0|] eqn:Hd0.
    + pose proof (chain_next _ _ _ _ _ _ Hg Hd0 Hd) as Heq. simpl in Heq.
      rewrite <-Heq.
      destruct (decide (i < lb)%nat) as [Hlt|Hge].
      * pose proof (lower_bound_below (cmp endTime) e data _ _ Hlt Hd0). lia.
      * pose proof (lower_bound_above (cmp endTime) e data i d0 Hc
                      ltac:(lia) Hd0). lia.
    + apply lookup_ge_None in Hd0. apply lookup_lt_Some in Hd. lia.
Qed.

(** On entries that last some time, and for [s <= e], the test of
    [inTimeRangeMulti] is the overlap of two half-open intervals. *)
Lemma overlap_test s e (d : A) :
  s ≤ e → startTime d < endTime d →
  Range.hasIntersection (Range.new s e)
      (Range.new (startTime d) (endTime d))
    && negb (bool_decide (e = startTime d))
    && negb (bool_decide (s = endTime d)) = true
  ↔ s < endTime d ∧ startTime d < e.
Proof.
  intros Hse Hd. unfold Range.hasIntersection, Range.new. simpl.
  rewrite !andb_true_iff, !negb_true_iff, !bool_decide_eq_false,
    bool_decide_eq_true.
  repeat case_decide; lia.
Qed.

Lemma inTimeRangeMulti_gapless s e data :
  gapless data → s ≤ e → ¬ outside_span s e data → data ≠ [] →
  inTimeRangeMulti s e data = spec_filter s e data.
Proof.
  intros Hg Hse Hout Hne.
  destruct (nonempty_head_last data Hne) as (first & last_ & Hf & Hl).
  unfold outside_span in Hout. rewrite Hf, Hl in Hout.
  unfold inTimeRangeMulti, spec_filter. simpl.
  replace (spec_endIndex e data + 1 - spec_startIndex s data)%nat with
    (S (spec_endIndex e data) - spec_startIndex s data)%nat by lia.
  apply filter_window. intros i d Hd.
  pose proof (chain_lookup _ _ _ _ _ Hg Hd) as Hdd. simpl in Hdd.
  rewrite (overlap_test s e d Hse Hdd).
  rewrite (startIndex_window s data last_ i d Hg Hl ltac:(lia) Hd).
  rewrite (endIndex_window e data first i d Hg Hf ltac:(lia) Hd).
  lia.
Qed.

Lemma inTimeRangeMulti_outside s e data :
  gapless data → s ≤ e → outside_span s e data →
  inTimeRangeMulti s e data = [].
Proof.
  intros Hg Hse Hout.
  unfold outside_span in Hout.
  destruct (head data) as [first|] eqn:Hf; [|done].
  destruct (last data) as [last_|] eqn:Hl; [|done].
  unfold inTimeRangeMulti. simpl.
  rewrite (filter_window _ data 0 0); [by rewrite take_0|].
  intros i d Hd.
  pose proof (chain_lookup _ _ _ _ _ Hg Hd) as Hdd. simpl in Hdd.
  rewrite (overlap_test s e d Hse Hdd).
  pose proof (gapless_ordered _ Hg) as Ho.
  rewrite head_lookup in Hf. rewrite last_lookup in Hl.
  pose proof (ordered_sorted_startTime _ Ho 0%nat i first d
                ltac:(lia) Hf Hd).
  pose proof (lookup_lt_Some _ _ _ Hd).
  pose proof (ordered_sorted_endTime _ Ho i (pred (length data)) d last_
                ltac:(lia) Hd Hl).
  lia.
Qed.

(** Whatever the order of [s] and [e], every entry returned for gapless
    data starts before [e] and ends after [s]. *)
Lemma inTimeRange_gapless_elem s e data :
  gapless data →
  ∃ r, inTimeRange s e data = Ok r
       ∧ ∀ d, d ∈ r → startTime d < e ∧ s < endTime d.
Proof.
  intros Hg.
  destruct data as [|d0 data0] eqn:Hdata.
  { exists []. split; [done|]. by intros d ?%elem_of_nil. }
  rewrite <-Hdata in *.
  assert (data ≠ []) as Hne by by subst.
  destruct (nonempty_head_last data Hne) as (first & last_ & Hf & Hl).
  destruct (decide (bool_decide (s >= endTime last_)
                    || bool_decide (e ≤ startTime first) = true))
    as [Hout|Hout].
  - exists []. split; [|by intros d ?%elem_of_nil].
    unfold inTimeRange.
    by rewrite (inTimeRangeWith_nonempty _ _ _ _ _ _ Hf Hl), Hout.
  - exists (spec_filter s e data).
    pose proof Hout as Hout'.
    rewrite <-(outside_span_decide _ _ _ _ _ Hf Hl) in Hout.
    split; [apply inTimeRange_ordered; auto using gapless_ordered|].
    apply not_true_is_false in Hout'.
    rewrite orb_false_iff, !bool_decide_eq_false in Hout'.
    intros d [i Hi]%list_elem_of_lookup. unfold spec_filter in Hi.
    apply lookup_take_Some in Hi as [Hi Hlt].
    rewrite lookup_drop in Hi.
    rewrite (startIndex_window s data last_ _ d Hg Hl ltac:(lia) Hi).
    rewrite (endIndex_window e data first _ d Hg Hf ltac:(lia) Hi).
    lia.
Qed.

End Gapless.

(** C1. On non-empty data that satisfies the ordering invariant, a query that
    survives the fast rejection is answered by the specified algorithm:
    search by [startTime] (on a miss, the element before the insertion index,
    or index 0), search by [endTime] (on a miss, the insertion index itself),
    then the slice from the start index through the end index.  On the
    scenario data, (5, 15) yields entries 0 and 1, (10, 20) yields entry 1,
    and (20, 20) yields nothing. *)
Theorem inTimeRange_computes_spec_filter :
  (∀ (A : Type) (TA : Timed A) (s e : Z) (data : list A),
     data ≠ [] → ordered data → ¬ outside_span s e data →
     inTimeRange s e data = Ok (spec_filter s e data))
  ∧ (∀ v0 v1 v2,
       inTimeRange 5 15 (scenario v0 v1 v2)
         = Ok [mkEntry 0 10 v0; mkEntry 10 20 v1]
       ∧ inTimeRange 10 20 (scenario v0 v1 v2) = Ok [mkEntry 10 20 v1]
       ∧ inTimeRange 20 20 (scenario v0 v1 v2) = Ok []).
Proof.
  split.
  - intros. by apply inTimeRange_ordered.
  - intros. split_and!; reflexivity.
Qed.

Lemma inTimeRange_computes_spec_filter_witness :
  let data := scenario (Finite 1) (Finite 2) (Finite 3) in
  data ≠ [] ∧ ordered data ∧ ¬ outside_span 5 15 data
  ∧ inTimeRange 5 15 data = Ok (spec_filter 5 15 data).
Proof.
  assert (scenario (Finite 1) (Finite 2) (Finite 3) ≠ []) as Hne by done.
  assert (ordered (scenario (Finite 1) (Finite 2) (Finite 3))) as Ho
    by (cbn; lia).
  assert (¬ outside_span 5 15 (scenario (Finite 1) (Finite 2) (Finite 3)))
    as Hout by (cbn; lia).
  exact (conj Hne (conj Ho (conj Hout
    (proj1 inTimeRange_computes_spec_filter _ _ 5 15 _ Hne Ho Hout)))).
Defined.

(** C4. On the empty sequence the query returns the empty sequence, and on
    non-empty data a query that starts at or after the last [endTime], or ends
    at or before the first [startTime], returns the empty sequence; the
    result does not depend on the search function, which is never
    consulted. *)
Theorem inTimeRange_boundary_emptiness :
  ∀ (A : Type) (TA : Timed A) (search : search_fn) (s e : Z),
    inTimeRangeWith search s e [] = Ok []
    ∧ inTimeRange s e ([] : list A) = Ok []
    ∧ ∀ data : list A, data ≠ [] → outside_span s e data →
        inTimeRangeWith search s e data = Ok []
        ∧ inTimeRange s e data = Ok [].
Proof.
  intros A TA search s e. split_and!; [done..|].
  intros data Hne Hout.
  destruct (nonempty_head_last data Hne) as (first & last_ & Hf & Hl).
  unfold inTimeRange.
  rewrite !(inTimeRangeWith_nonempty _ _ _ _ _ _ Hf Hl).
  apply (outside_span_decide _ _ _ _ _ Hf Hl) in Hout. by rewrite Hout.
Qed.

Lemma inTimeRange_boundary_emptiness_witness :
  let data := scenario (Finite 1) (Finite 2) (Finite 3) in
  let search : search_fn := λ T _ _ _, Throw TypeError in
  data ≠ [] ∧ outside_span 30 45 data
  ∧ inTimeRangeWith search 30 45 data = Ok []
  ∧ inTimeRange 30 45 data = Ok [].
Proof.
  assert (scenario (Finite 1) (Finite 2) (Finite 3) ≠ []) as Hne by done.
  assert (outside_span 30 45 (scenario (Finite 1) (Finite 2) (Finite 3)))
    as Hout by (cbn; lia).
  exact (conj Hne (conj Hout
    (proj2 (proj2 (inTimeRange_boundary_emptiness Entry _
      (λ T _ _ _, Throw TypeError) 30 45)) _ Hne Hout))).
Defined.

(** C3, as amended.  On gapless data (every entry lasts some time and ends
    exactly where the next one starts) and for query bounds [s <= e],
    [inTimeRange] and [inTimeRangeMulti] return the same entries, in the same
    order. *)
Theorem inTimeRange_inTimeRangeMulti_gapless :
  ∀ (A : Type) (TA : Timed A) (s e : Z) (data : list A),
    gapless data → s ≤ e →
    inTimeRange s e data = Ok (inTimeRangeMulti s e data).
Proof.
  intros A TA s e data Hg Hse.
  destruct data as [|d0 data0] eqn:Hdata; [done|]. rewrite <-Hdata in *.
  assert (data ≠ []) as Hne by by subst.
  destruct (nonempty_head_last data Hne) as (first & last_ & Hf & Hl).
  destruct (decide (bool_decide (s >= endTime last_)
                    || bool_decide (e ≤ startTime first) = true))
    as [Hout|Hout].
  - (* the fast rejection: no entry overlaps the query *)
    unfold inTimeRange.
    rewrite (inTimeRangeWith_nonempty _ _ _ _ _ _ Hf Hl), Hout.
    rewrite inTimeRangeMulti_outside; [done..|].
    by apply (outside_span_decide _ _ _ _ _ Hf Hl).
  - (* the slice between the two searched indices *)
    rewrite <-(outside_span_decide _ _ _ _ _ Hf Hl) in Hout.
    rewrite inTimeRange_ordered by auto using gapless_ordered.
    by rewrite inTimeRangeMulti_gapless.
Qed.

Lemma inTimeRange_inTimeRangeMulti_gapless_witness :
  let data := scenario (Finite 1) (Finite 2) (Finite 3) in
  gapless data ∧ 5 ≤ 15
  ∧ inTimeRange 5 15 data = Ok (inTimeRangeMulti 5 15 data).
Proof.
  assert (gapless (scenario (Finite 1) (Finite 2) (Finite 3))) as Hg
    by (cbn; lia).
  assert (5 ≤ 15) as Hse by lia.
  exact (conj Hg (conj Hse
    (inTimeRange_inTimeRangeMulti_gapless Entry _ 5 15 _ Hg Hse))).
Defined.

(** The two queries differ on data that satisfies the ordering invariant:
    for an inverted query on the scenario data, for a query that starts where
    an entry of no duration sits, and for a query that falls into a gap. *)
Lemma inTimeRange_inTimeRangeMulti_differ :
  (let data := [interval 0 10; interval 10 20; interval 20 30] in
   ordered data
   ∧ inTimeRange 25 5 data = Ok []
   ∧ inTimeRangeMulti 25 5 data = data)
  ∧ (let data := [interval 0 10; interval 10 10; interval 10 20] in
     ordered data
     ∧ inTimeRange 10 15 data = Ok [interval 10 10; interval 10 20]
     ∧ inTimeRangeMulti 10 15 data = [interval 10 20])
  ∧ (let data := [interval 0 10; interval 20 30] in
     ordered data
     ∧ inTimeRange 12 15 data = Ok data
     ∧ inTimeRangeMulti 12 15 data = []).
Proof. cbv zeta. split_and!; try (cbn; lia); reflexivity. Qed.

(** C2, as amended.  An entry that the query only touches ([e] is its
    [startTime], or [s] is its [endTime]) is not in the result of
    [inTimeRangeMulti], nor in the result of [inTimeRange] when the data is
    gapless. *)
Theorem half_open_exclusivity :
  ∀ (A : Type) (TA : Timed A) (s e : Z) (data : list A) (E : A),
    E ∈ data → (e = startTime E ∨ s = endTime E) →
    (E ∉ inTimeRangeMulti s e data)
    ∧ (gapless data → ∃ r, inTimeRange s e data = Ok r ∧ E ∉ r).
Proof.
  intros A TA s e data E HE Htouch. split.
  - unfold inTimeRangeMulti.
    intros [_ Hpred]%list_elem_of_In%filter_In.
    rewrite !andb_true_iff, !negb_true_iff, !bool_decide_eq_false in Hpred.
    tauto.
  - intros Hg.
    destruct (inTimeRange_gapless_elem s e data Hg) as (r & Hr & Helem).
    exists r. split; [done|]. intros Hin%Helem. lia.
Qed.

Lemma half_open_exclusivity_witness :
  let data := scenario (Finite 1) (Finite 2) (Finite 3) in
  let E := mkEntry 10 20 (Finite 2) in
  E ∈ data ∧ (10 = startTime E ∨ 5 = endTime E) ∧ gapless data
  ∧ (E ∉ inTimeRangeMulti 5 10 data)
  ∧ ∃ r, inTimeRange 5 10 data = Ok r ∧ E ∉ r.
Proof.
  assert (mkEntry 10 20 (Finite 2)
          ∈ scenario (Finite 1) (Finite 2) (Finite 3)) as HE by (right; left).
  assert (10 = startTime (mkEntry 10 20 (Finite 2))
          ∨ 5 = endTime (mkEntry 10 20 (Finite 2))) as Ht
    by (left; reflexivity).
  assert (gapless (scenario (Finite 1) (Finite 2) (Finite 3))) as Hg
    by (cbn; lia).
  exact (conj HE (conj Ht (conj Hg
    (conj (proj1 (half_open_exclusivity Entry _ 5 10 _ _ HE Ht))
          (proj2 (half_open_exclusivity Entry _ 5 10 _ _ HE Ht) Hg))))).
Defined.

(** Under the ordering invariant alone, [inTimeRange] returns entries that
    the query only touches: an entry of no duration that ends where the
    query starts, and, next to a gap, an entry that ends where the query
    starts. *)
Lemma half_open_exclusivity_fails_when_ordered :
  (let data := [interval 0 10; interval 10 10; interval 10 20] in
   let E := interval 10 10 in
   ordered data ∧ E ∈ data ∧ 10 = endTime E
   ∧ ∃ r, inTimeRange 10 15 data = Ok r ∧ E ∈ r)
  ∧ (let data := [interval 0 10; interval 20 30] in
     let E := interval 0 10 in
     ordered data ∧ E ∈ data ∧ 10 = endTime E
     ∧ ∃ r, inTimeRange 10 15 data = Ok r ∧ E ∈ r).
Proof.
  split; simpl.
  - split_and!; [cbn; lia|right; left|done|].
    eexists. split; [reflexivity|left].
  - split_and!; [cbn; lia|left|done|].
    eexists. split; [reflexivity|left].
Qed.

(** ** Sharing and the frame *)

Lemma slice_segment {A} (arr : list A) (start end_ : Z) :
  ∃ i j, (i ≤ j ≤ length arr)%nat
         ∧ array.slice arr start end_ = take (j - i) (drop i arr).
Proof.
  unfold array.slice.
  set (k := array.relative_index _ start).
  set (final := array.relative_index _ end_).
  assert (0 ≤ k ≤ Z.of_nat (length arr) ∧ 0 ≤ final ≤ Z.of_nat (length arr))
    as Hb.
  { unfold k, final, array.relative_index. repeat case_decide; lia. }
  exists (Z.to_nat k), (Z.to_nat (Z.max k final)). split; [lia|].
  f_equal. lia.
Qed.

(** On every array, [inTimeRange] returns a segment of it. *)
Lemma inTimeRange_segment {A} `{Timed A} s e (data : list A) :
  ∃ i j, (i ≤ j ≤ length data)%nat
         ∧ inTimeRange s e data = Ok (take (j - i) (drop i data)).
Proof.
  destruct data as [|d0 data0] eqn:Hdata.
  { exists 0%nat, 0%nat. split; [simpl; lia|done]. }
  rewrite <-Hdata. assert (data ≠ []) as Hne by by subst.
  destruct (nonempty_head_last data Hne) as (first & last_ & Hf & Hl).
  unfold inTimeRange. rewrite (inTimeRangeWith_nonempty _ _ _ _ _ _ Hf Hl).
  destruct (_ || _).
  { exists 0%nat, 0%nat. split; [lia|done]. }
  destruct (binarySearch_returns
              (λ d1 d2, startObj_startTime d1 - startTime d2)
              {| startObj_startTime := s |} data) as [x ->].
  destruct (binarySearch_returns
              (λ d1 d2, endObj_endTime d1 - endTime d2)
              {| endObj_endTime := e |} data) as [y ->].
  simpl.
  destruct (slice_segment data
    (if decide (x < 0) then
       if decide (- (x + 1) ≠ 0) then - (x + 1) - 1 else - (x + 1)
     else x)
    ((if decide (y < 0) then - (y + 1) else y) + 1)) as (i & j & Hij & ->).
  eauto.
Qed.

Lemma filter_sublist {A} (f : A → bool) (l : list A) :
  List.filter f l `sublist_of` l.
Proof.
  induction l as [|x l IH]; simpl; [constructor|].
  destruct (f x); by constructor.
Qed.

Lemma alloc_preserved arr h :
  Store.preserved h (Store.alloc arr h).2 (Store.alloc arr h).1
  ∧ Store.arrays (Store.alloc arr h).2 !! (Store.alloc arr h).1 = Some arr.
Proof.
  unfold Store.preserved, Store.alloc. simpl. split_and!.
  - apply not_elem_of_dom, is_fresh.
  - done.
  - intros l Hl. by rewrite lookup_insert_ne.
  - by rewrite lookup_insert_eq.
Qed.

(** C5. The result of [inTimeRange] is a contiguous slice [data[i..j)] of the
    input, made of the same entry objects; [inTimeRangeMulti] returns a
    subsequence of the same entry objects; both return a new array and leave
    the input array and every entry as they were. *)
Theorem filters_share_and_preserve :
  ∀ (h : Store.heap) (data : Store.ref) (arr : list Store.ref) (s e : Z),
    Store.arrays h !! data = Some arr →
    (∃ r h' i j,
        Store.inTimeRange s e data h = Ok (r, h')
        ∧ (i ≤ j ≤ length arr)%nat
        ∧ Store.arrays h' !! r = Some (take (j - i) (drop i arr))
        ∧ Store.arrays h' !! data = Some arr
        ∧ Store.preserved h h' r)
    ∧ (∃ r h' res,
          Store.inTimeRangeMulti s e data h = Ok (r, h')
          ∧ Store.arrays h' !! r = Some res
          ∧ res `sublist_of` arr
          ∧ Store.arrays h' !! data = Some arr
          ∧ Store.preserved h h' r).
Proof.
  intros h data arr s e Harr. split.
  - destruct (@inTimeRange_segment _ (Store.Timed_ref h) s e arr)
      as (i & j & Hij & Hres).
    pose proof (alloc_preserved (take (j - i) (drop i arr)) h)
      as [Hpres Hnew].
    eexists _, _, i, j. unfold Store.inTimeRange, Store.read_array.
    rewrite Harr. simpl. rewrite Hres. simpl.
    split_and!; [done|lia..|exact Hnew| |exact Hpres].
    destruct Hpres as (Hfresh & _ & Hother).
    rewrite Hother; [done|]. intros ->. congruence.
  - pose proof (alloc_preserved
      (@inTimeRangeMulti _ (Store.Timed_ref h) s e arr) h) as [Hpres Hnew].
    eexists _, _, _. unfold Store.inTimeRangeMulti, Store.read_array.
    rewrite Harr. simpl.
    split_and!; [done|exact Hnew|apply filter_sublist| |exact Hpres].
    destruct Hpres as (Hfresh & _ & Hother).
    rewrite Hother; [done|]. intros ->. congruence.
Qed.

Lemma filters_share_and_preserve_witness :
  let h := {| Store.objects := λ r, interval (10 * Z.of_nat r)
                                      (10 * Z.of_nat r + 10);
              Store.arrays := {[ 7%nat := [0; 1; 2]%nat ]} |} in
  Store.arrays h !! 7%nat = Some [0; 1; 2]%nat
  ∧ ∃ r h' i j,
      Store.inTimeRange 5 15 7%nat h = Ok (r, h')
      ∧ (i ≤ j ≤ 3)%nat
      ∧ Store.arrays h' !! r = Some (take (j - i) (drop i [0; 1; 2]%nat))
      ∧ Store.arrays h' !! 7%nat = Some [0; 1; 2]%nat
      ∧ Store.preserved h h' r.
Proof.
  split; [reflexivity|].
  exact (proj1 (filters_share_and_preserve
    {| Store.objects := λ r, interval (10 * Z.of_nat r)
                               (10 * Z.of_nat r + 10);
       Store.arrays := {[ 7%nat := [0; 1; 2]%nat ]} |}
    7%nat [0; 1; 2]%nat 5 15 eq_refl)).
Defined.

(** ** Geometry *)

(** C10. [intersectSegSeg] is the conjunction of the two line-against-segment
    tests, so exchanging the two segments does not change its result. *)
Theorem intersectSegSeg_symmetric :
  ∀ a b c d : point,
    intersectSegSeg a b c d
      = (intersectLineSeg a b c d && intersectLineSeg c d a b)
    ∧ intersectSegSeg a b c d = intersectSegSeg c d a b.
Proof.
  intros a b c d. split; [done|].
  unfold intersectSegSeg. apply andb_comm.
Qed.

(** ** Identifiers *)

Lemma in_class_lower c :
  in_class c = true →
  in_class (ascii_lower c) = true
  ∧ ascii_lower (ascii_lower c) = ascii_lower c
  ∧ (nat_of_ascii (ascii_lower c) < 128)%nat
  ∧ (nat_of_ascii c < 128)%nat.
Proof.
  destruct c as [[] [] [] [] [] [] [] []]; vm_compute; intros Hc;
    first [discriminate Hc | split_and!; [reflexivity..|lia|lia]].
Qed.

Lemma remove_outside_class_lower str :
  let r := map_string ascii_lower (remove_outside_class str) in
  remove_outside_class r = r
  ∧ map_string ascii_lower r = r
  ∧ all_ascii r
  ∧ all_ascii (remove_outside_class str).
Proof.
  induction str as [|c str IH]; simpl; [done|].
  destruct (in_class c) eqn:Hc; [|done].
  destruct (in_class_lower c Hc) as (Hl & Hll & Hlt & Hlt').
  destruct IH as (IH1 & IH2 & IH3 & IH4).
  simpl. rewrite Hl, Hll, IH1, IH2. done.
Qed.

Section ValidIDFacts.
Variable toLowerCase : string → string.
Hypothesis toLowerCase_ascii :
  ∀ str, all_ascii str → toLowerCase str = map_string ascii_lower str.

Lemma toValidID_ascii str :
  toValidID toLowerCase str
    = map_string ascii_lower (remove_outside_class str).
Proof.
  unfold toValidID. apply toLowerCase_ascii.
  apply (remove_outside_class_lower str).
Qed.

End ValidIDFacts.

(** C9. [toValidID] is idempotent, and its result is left as it is both by
    the removal of the characters outside [[a-z0-9_-]] and by the conversion
    to lower case; this holds for every [toLowerCase] that maps the letters
    A to Z to a to z on ASCII strings. *)
Theorem toValidID_idempotent :
  ∀ toLowerCase : string → string,
    (∀ str, all_ascii str → toLowerCase str = map_string ascii_lower str) →
    ∀ s : string,
      toValidID toLowerCase (toValidID toLowerCase s)
        = toValidID toLowerCase s
      ∧ remove_outside_class (toValidID toLowerCase s)
          = toValidID toLowerCase s
      ∧ map_string ascii_lower (toValidID toLowerCase s)
          = toValidID toLowerCase s.
Proof.
  intros toLowerCase HtoLowerCase s.
  rewrite (toValidID_ascii _ HtoLowerCase (toValidID toLowerCase s)).
  rewrite !(toValidID_ascii _ HtoLowerCase s).
  destruct (remove_outside_class_lower s) as (H1 & H2 & _ & _).
  simpl in *. by rewrite !H1, !H2.
Qed.

Lemma toValidID_idempotent_witness :
  let toLowerCase := map_string ascii_lower in
  (∀ str, all_ascii str → toLowerCase str = map_string ascii_lower str)
  ∧ toValidID toLowerCase "Battery Level (%)" = "batterylevel"
  ∧ toValidID toLowerCase (toValidID toLowerCase "Battery Level (%)")
      = toValidID toLowerCase "Battery Level (%)".
Proof.
  split; [intros str _; reflexivity|]. split; [reflexivity|].
  exact (proj1 (toValidID_idempotent (map_string ascii_lower)
    (λ str _, eq_refl) "Battery Level (%)")).
Defined.

(** ** Byte counts *)

Lemma lt_Finite (q r : Q) :
  Number.lt (Finite q) (Finite r) = if Qlt_le_dec q r then true else false.
Proof.
  unfold Number.lt. simpl.
  destruct (Qlt_le_dec q r) as [Hlt|Hle].
  - by rewrite (proj1 (Qlt_alt q r) Hlt).
  - destruct (q ?= r)%Q eqn:Hc; try done.
    apply Qlt_alt in Hc. by apply Qlt_not_le in Hc.
Qed.

Lemma append_assoc (s1 s2 s3 : string) :
  (s1 +:+ s2) +:+ s3 = s1 +:+ (s2 +:+ s3).
Proof.
  induction s1 as [|c s1 IH]; [done|].
  change (String c ((s1 +:+ s2) +:+ s3) = String c (s1 +:+ s2 +:+ s3)).
  by f_equal.
Qed.

(** A finite number is printed by [toFixed(2)] with two digits after the
    decimal point. *)
Lemma toFixed_2_decimals (q : Q) (s : string) :
  toFixed (Finite q) 2 = Some s →
  ∃ (body : string) (k1 k2 : N),
    (k1 < 10)%N ∧ (k2 < 10)%N
    ∧ s = body +:+ "." +:+ String (ascii_of_N (48 + k1))
                             (String (ascii_of_N (48 + k2)) "").
Proof.
  unfold toFixed. destruct (Qlt_le_dec (Qabs q) _); [|done].
  intros [= <-].
  match goal with
  | |- context [ ?sign +:+ pretty ?ip +:+ "." +:+
                 ("" +:+ String (ascii_of_N (48 + ?a)) "") +:+
                 String (ascii_of_N (48 + ?b)) "" ] =>
      exists (sign +:+ pretty ip), a, b;
      split_and!; [by apply N.mod_lt..|];
      by rewrite (append_assoc sign (pretty ip))
  end.
Qed.

(** C8. The unit is chosen by comparing the byte count with 512, 524288 and
    536870912, the count is divided by the size of the unit, and the
    quotient is printed with two digits after the decimal point. *)
Theorem describeBytes_thresholds :
  (∀ q : Q,
     describeBytes (Finite q) =
       if Qlt_le_dec q 512 then
         subs_suffix " bytes" (toFixed (Finite q) 2)
       else if Qlt_le_dec q 524288 then
         subs_suffix " KB" (toFixed (Finite (Qred (q / 1024))) 2)
       else if Qlt_le_dec q 536870912 then
         subs_suffix " MB" (toFixed (Finite (Qred (q / 1048576))) 2)
       else
         subs_suffix " GB" (toFixed (Finite (Qred (q / 1073741824))) 2))
  ∧ (∀ (q : Q) (s : string),
       describeBytes (Finite q) = Some s →
       ∃ (body unit_ : string) (k1 k2 : N),
         (k1 < 10)%N ∧ (k2 < 10)%N
         ∧ unit_ ∈ [" bytes"; " KB"; " MB"; " GB"]
         ∧ s = (body +:+ "." +:+ String (ascii_of_N (48 + k1))
                                  (String (ascii_of_N (48 + k2)) ""))
               +:+ unit_)
  ∧ describeBytes (Number.of_Z 512) = Some "0.50 KB"
  ∧ describeBytes (Number.of_Z 511) = Some "511.00 bytes"
  ∧ describeBytes (Number.of_Z (1024 * 1024)) = Some "1.00 MB".
Proof.
  assert (∀ q : Q,
     describeBytes (Finite q) =
       if Qlt_le_dec q 512 then
         subs_suffix " bytes" (toFixed (Finite q) 2)
       else if Qlt_le_dec q 524288 then
         subs_suffix " KB" (toFixed (Finite (Qred (q / 1024))) 2)
       else if Qlt_le_dec q 536870912 then
         subs_suffix " MB" (toFixed (Finite (Qred (q / 1048576))) 2)
       else
         subs_suffix " GB" (toFixed (Finite (Qred (q / 1073741824))) 2))
    as Hunits.
  { intros q. unfold describeBytes.
    change (Number.div (Number.of_Z 1024) (Number.of_Z 2)) with
      (Finite 512).
    change (Number.div (Number.mul (Number.of_Z 1024) (Number.of_Z 1024))
              (Number.of_Z 2)) with (Finite 524288).
    change (Number.div (Number.mul (Number.mul (Number.of_Z 1024)
              (Number.of_Z 1024)) (Number.of_Z 1024)) (Number.of_Z 2)) with
      (Finite 536870912).
    change (Number.mul (Number.mul (Number.of_Z 1024) (Number.of_Z 1024))
              (Number.of_Z 1024)) with (Finite 1073741824).
    change (Number.mul (Number.of_Z 1024) (Number.of_Z 1024)) with
      (Finite 1048576).
    rewrite !lt_Finite.
    by repeat destruct (Qlt_le_dec q _). }
  split_and!; [exact Hunits| |reflexivity..].
  intros q s. rewrite Hunits. unfold subs_suffix.
  repeat destruct (Qlt_le_dec q _);
    (destruct (toFixed _ 2) as [s'|] eqn:Hs'; [|done]);
    intros [= <-];
    destruct (toFixed_2_decimals _ _ Hs') as (body & k1 & k2 & ? & ? & ->);
    eexists body, _, k1, k2; (split_and!; [done|done| |reflexivity]);
    set_solver.
Qed.

Lemma describeBytes_thresholds_witness :
  describeBytes (Finite 512) = Some "0.50 KB"
  ∧ ∃ (body unit_ : string) (k1 k2 : N),
      (k1 < 10)%N ∧ (k2 < 10)%N
      ∧ unit_ ∈ [" bytes"; " KB"; " MB"; " GB"]
      ∧ "0.50 KB" = (body +:+ "." +:+ String (ascii_of_N (48 + k1))
                                       (String (ascii_of_N (48 + k2)) ""))
                    +:+ unit_.
Proof.
  split; [reflexivity|].
  exact (proj1 (proj2 describeBytes_thresholds) 512%Q "0.50 KB" eq_refl).
Defined.

(** ** Derivative *)

Lemma bind_Ok {A B} (a : A) (k : A → outcome B) : (Ok a ≫= k) = k a.
Proof. reflexivity. Qed.

Lemma compare_inject_Z_pos (z : Z) : 0 < z → (inject_Z z ?= 0)%Q = Gt.
Proof. intros Hz. apply Qgt_alt. unfold Qlt. simpl. lia. Qed.

(** [dx == 0] holds exactly when the two start times are equal. *)
Lemma hours_eq_0 (ms : Z) :
  Number.eq (hours ms) (Number.of_Z 0) = bool_decide (ms = 0).
Proof.
  unfold hours, Number.eq, Number.div, Number.of_Z.
  rewrite compare_inject_Z_pos by done. simpl.
  case_bool_decide as Hms.
  - subst ms. reflexivity.
  - destruct (_ ?= _)%Q eqn:Hc; [|done..].
    apply Qeq_alt in Hc. rewrite Qred_correct in Hc.
    exfalso. apply Hms. revert Hc.
    unfold Qeq, Qdiv, Qmult, Qinv, inject_Z. simpl. lia.
Qed.

Lemma forEach_generateDerivative (data front rest acc : list Entry) :
  data = front ++ rest →
  forEach_from (λ cur i derivative,
      if decide (Z.of_nat i = Z.of_nat (length data) - 1) then Ok derivative
      else
        next ← at_index data (i + 1);
        let dy := Number.sub (value next) (value cur) in
        let dx := Number.div (Number.of_Z (startTime next - startTime cur))
                    (Number.of_Z time.MSECS_IN_HOUR) in
        Ok (derivative ++
            [ {| entry_startTime := startTime cur;
                 entry_endTime := startTime next;
                 value := if Number.eq dx (Number.of_Z 0) then Number.of_Z 0
                          else Number.div dy dx |} ]))
    rest (length front) acc
  = Ok (acc ++ consecutive_rates rest).
Proof.
  revert front acc. induction rest as [|cur rest IH]; intros front acc Hdata.
  { simpl. by rewrite app_nil_r. }
  cbn [forEach_from].
  assert (length data = length front + S (length rest))%nat as Hlen.
  { subst data. rewrite length_app. simpl. lia. }
  destruct rest as [|next rest]; simpl in Hlen.
  - rewrite decide_True by lia. simpl. by rewrite app_nil_r.
  - rewrite decide_False by lia.
    assert (data !! (length front + 1)%nat = Some next) as Hnext.
    { subst data. rewrite lookup_app_r by lia.
      by replace (length front + 1 - length front)%nat with 1%nat by lia. }
    rewrite (at_index_Ok _ _ _ Hnext), !bind_Ok.
    fold (hours (startTime next - startTime cur)).
    rewrite hours_eq_0.
    replace (if bool_decide (startTime next - startTime cur = 0)
             then Number.of_Z 0
             else Number.div (Number.sub (value next) (value cur))
                    (hours (startTime next - startTime cur))) with
      (value (rate_of_change cur next)).
    2:{ unfold rate_of_change. cbn [value].
        destruct (decide (startTime next = startTime cur)) as [Heq|Hne].
        - by rewrite bool_decide_eq_true_2 by lia.
        - by rewrite bool_decide_eq_false_2 by lia. }
    change {| entry_startTime := startTime cur;
              entry_endTime := startTime next;
              value := value (rate_of_change cur next) |} with
      (rate_of_change cur next).
    change (consecutive_rates (cur :: next :: rest)) with
      (rate_of_change cur next :: consecutive_rates (next :: rest)).
    specialize (IH (front ++ [cur]) (acc ++ [rate_of_change cur next])).
    rewrite length_app in IH. change (length [cur]) with 1%nat in IH.
    replace (S (length front)) with (length front + 1)%nat by lia.
    specialize (IH ltac:(by rewrite <-app_assoc)).
    rewrite <-app_assoc in IH. exact IH.
Qed.

Lemma generateDerivative_consecutive_rates data :
  generateDerivative data = Ok (consecutive_rates data).
Proof.
  exact (forEach_generateDerivative data [] data [] eq_refl).
Qed.

Lemma consecutive_rates_length data :
  length (consecutive_rates data) = (length data - 1)%nat.
Proof.
  induction data as [|cur [|next rest] IH]; [done..|].
  change (S (length (consecutive_rates (next :: rest)))
          = (length (cur :: next :: rest) - 1)%nat).
  rewrite IH. simpl. lia.
Qed.

Lemma consecutive_rates_lookup data i :
  consecutive_rates data !! i =
    match data !! i, data !! (i + 1)%nat with
    | Some cur, Some next => Some (rate_of_change cur next)
    | _, _ => None
    end.
Proof.
  revert i. induction data as [|cur [|next rest] IH]; intros i.
  - done.
  - by destruct i as [|i].
  - change (consecutive_rates (cur :: next :: rest)) with
      (rate_of_change cur next :: consecutive_rates (next :: rest)).
    destruct i as [|i]; [done|]. apply (IH i).
Qed.

(** C7. [generateDerivative] returns one entry per pair of consecutive
    entries, so [data.length - 1] entries for non-empty data and none for
    empty or singleton data; the i-th entry starts at [data[i].startTime],
    ends at [data[i+1].startTime], and its value is 0 when the two start
    times are equal and otherwise the value difference divided by the time
    difference in hours. *)
Theorem generateDerivative_entries :
  ∀ data : list Entry,
    ∃ r, generateDerivative data = Ok r
         ∧ length r = (length data - 1)%nat
         ∧ ∀ i : nat,
             r !! i = match data !! i, data !! (i + 1)%nat with
                      | Some cur, Some next =>
                          Some {| entry_startTime := startTime cur;
                                  entry_endTime := startTime next;
                                  value :=
                                    if decide (startTime next = startTime cur)
                                    then Number.of_Z 0
                                    else Number.div
                                           (Number.sub (value next) (value cur))
                                           (hours (startTime next
                                                   - startTime cur)) |}
                      | _, _ => None
                      end.
Proof.
  intros data. exists (consecutive_rates data). split_and!.
  - apply generateDerivative_consecutive_rates.
  - apply consecutive_rates_length.
  - apply consecutive_rates_lookup.
Qed.

(** ** Total charge *)

Section TotalCharge.

Local Abbreviation hz_of d :=
  (if decide (endTime d - startTime d ≠ 0)
   then Number.div (Number.of_Z time.MSECS_IN_SEC)
          (Number.of_Z (endTime d - startTime d))
   else Number.of_Z 0).

Local Abbreviation callback :=
  (λ (d : Entry) (_ : nat) (total : number),
     _ ← asserts.assert
           (bool_decide (endTime d - startTime d >= 0))
           ("Negative duration: start=" +:+ pretty (startTime d)
            +:+ ", end=" +:+ pretty (endTime d));
     Ok (Number.add total (Number.div (value d) (hz_of d)))).

(** The loop either adds up [value / hz] over all entries, none of which
    has a negative duration, or stops with an assertion error at an entry
    of negative duration. *)
Lemma forEach_calculateTotalCharge (data : list Entry) i total :
  match forEach_from callback data i total with
  | Ok total' =>
      Forall (λ d, startTime d ≤ endTime d) data
      ∧ total' = fold_left (λ total d,
                   Number.add total (Number.div (value d) (hz_of d)))
                   data total
  | Throw e =>
      ∃ d msg, d ∈ data ∧ endTime d < startTime d
               ∧ e = AssertionError msg
  end.
Proof.
  revert i total. induction data as [|d data IH]; intros i total.
  { simpl. by split. }
  cbn [forEach_from]. unfold asserts.assert.
  case_bool_decide as Hd.
  - rewrite !bind_Ok.
    specialize (IH (S i)
      (Number.add total (Number.div (value d) (hz_of d)))).
    destruct (forEach_from _ data _ _) as [total'|e].
    + destruct IH as [Hall ->]. split; [|done].
      constructor; [lia|done].
    + destruct IH as (d' & msg & Hin & Hneg & ->).
      exists d', msg. split_and!; [by right|done..].
  - exists d, ("Assertion failed: " +:+ "Negative duration: start="
               +:+ pretty (startTime d) +:+ ", end="
               +:+ pretty (endTime d)).
    split_and!; [by left|lia|done].
Qed.

Lemma calculateTotalCharge_throws_iff (data : list Entry) :
  (∃ e, calculateTotalCharge data = Throw e)
  ↔ ∃ d, d ∈ data ∧ endTime d < startTime d.
Proof.
  unfold calculateTotalCharge, forEach.
  pose proof (forEach_calculateTotalCharge data 0 (Number.of_Z 0)) as Hloop.
  destruct (forEach_from _ data _ _) as [total'|e].
  - destruct Hloop as [Hall _]. split; [by intros [e [=]]|].
    intros (d & Hin & Hneg). rewrite Forall_forall in Hall.
    specialize (Hall d Hin). simpl in Hall, Hneg. lia.
  - destruct Hloop as (d & msg & Hin & Hneg & ->). split; eauto.
Qed.

Lemma calculateTotalCharge_throws_assertion (data : list Entry) e :
  calculateTotalCharge data = Throw e → ∃ msg, e = AssertionError msg.
Proof.
  unfold calculateTotalCharge, forEach.
  pose proof (forEach_calculateTotalCharge data 0 (Number.of_Z 0)) as Hloop.
  destruct (forEach_from _ data _ _) as [total'|e']; [done|].
  destruct Hloop as (d & msg & Hin & Hneg & ->). intros [= <-]. eauto.
Qed.

Lemma calculateTotalChargeFormatted_throws_iff (data : list Entry) :
  (∃ e, calculateTotalChargeFormatted data = Throw e)
  ↔ ∃ d, d ∈ data ∧ endTime d < startTime d.
Proof.
  rewrite <-calculateTotalCharge_throws_iff.
  unfold calculateTotalChargeFormatted.
  destruct (calculateTotalCharge data) as [total|e]; simpl.
  - split; by intros [e [=]].
  - split; eauto.
Qed.




End TotalCharge.

(** C6, on an entry of no duration.  The loop takes [hz] to be 0 for such an
    entry and divides the reading by it: the total is [Infinity] for a
    positive reading and [NaN] for a reading of 0, where the specified sum
    is 0. *)
Theorem calculateTotalCharge_zero_duration :
  calculateTotalCharge [mkEntry 0 0 (Finite 1)] = Ok Infinity
  ∧ total_charge_spec [mkEntry 0 0 (Finite 1)] = Finite 0
  ∧ calculateTotalCharge [mkEntry 0 0 (Finite 0)] = Ok NaN
  ∧ calculateTotalChargeFormatted [mkEntry 0 0 (Finite 1)]
      = Ok (Some "Infinity").
Proof. split_and!; reflexivity. Qed.

(** * Further properties *)

(** ** Padding *)

Lemma repeat_length {C} (str : list C) (n : nat) :
  length (googString.repeat str n) = (n * length str)%nat.
Proof.
  induction n as [|n IH]; simpl; [done|]. rewrite length_app, IH. lia.
Qed.

Lemma Qfloor_sub_Z (q : Q) (n : Z) :
  Qfloor (q - inject_Z n) = Qfloor q - n.
Proof.
  assert (Qfloor q - n ≤ Qfloor (q - inject_Z n)) as Hlo.
  { rewrite <-(Qfloor_Z (Qfloor q - n)). apply Qfloor_resp_le.
    unfold Z.sub, Qminus. rewrite inject_Z_plus, inject_Z_opp.
    apply Qplus_le_l. apply Qfloor_le. }
  assert (Qfloor (q - inject_Z n) < Qfloor q - n + 1) as Hhi.
  { rewrite Zlt_Qlt. eapply Qle_lt_trans; [apply Qfloor_le|].
    replace (Qfloor q - n + 1) with (Qfloor q + 1 + - n) by lia.
    unfold Qminus. rewrite (inject_Z_plus (Qfloor q + 1)), inject_Z_opp.
    apply Qplus_lt_l. apply Qlt_floor. }
  lia.
Qed.

(** X1. Padding with a single character: the result starts with the given
    string, and its length is the larger of the string's length and the
    integer part of the requested length. *)
Theorem padString_length :
  ∀ (C : Type) (str chr : list C) (len : Q),
    length chr = 1%nat →
    take (length str) (padString str len chr) = str
    ∧ Z.of_nat (length (padString str len chr))
      = Z.max (Z.of_nat (length str)) (Qfloor len).
Proof.
  intros C str chr len Hchr. unfold padString. split.
  { by rewrite take_app_length. }
  rewrite length_app.
  destruct (Qlt_le_dec _ len) as [Hlt|Hle].
  - rewrite repeat_length, Hchr, Qfloor_sub_Z.
    apply Qlt_le_weak, Qfloor_resp_le in Hlt. rewrite Qfloor_Z in Hlt. lia.
  - apply Qfloor_resp_le in Hle. rewrite Qfloor_Z in Hle. simpl. lia.
Qed.

Lemma padString_length_witness :
  length ["*"%char] = 1%nat
  ∧ padString ["a"; "b"]%char (11 # 2) ["*"%char]
    = ["a"; "b"; "*"; "*"; "*"]%char
  ∧ Z.of_nat (length (padString ["a"; "b"]%char (11 # 2) ["*"%char]))
    = Z.max 2 (Qfloor (11 # 2)).
Proof.
  split; [reflexivity|]. split; [reflexivity|].
  exact (proj2 (padString_length ascii ["a"; "b"]%char ["*"%char] (11 # 2)
                  eq_refl)).
Defined.

(** X2. Padding is idempotent: a padded string is left as it is by a second
    padding to the same length with the same pad string, whatever the pad
    string is. *)
Theorem padString_idempotent :
  ∀ (C : Type) (str chr : list C) (len : Q),
    padString (padString str len chr) len chr = padString str len chr.
Proof.
  intros C str chr len.
  assert (∀ s : list C, padString s len chr = s ∨
            (inject_Z (Z.of_nat (length s)) < len)%Q) as Hcases.
  { intros s. unfold padString.
    destruct (Qlt_le_dec _ len); [by right|left; by rewrite app_nil_r]. }
  destruct (Hcases str) as [Heq|Hlt]; [by rewrite !Heq|].
  destruct chr as [|c chr'].
  { (* an empty pad string adds nothing *)
    assert (∀ n, googString.repeat ([] : list C) n = []) as Hnil
      by (induction n; simpl; auto).
    unfold padString. rewrite !Hnil. destruct (Qlt_le_dec _ len);
      destruct (Qlt_le_dec _ len); by rewrite !app_nil_r. }
  set (r := padString str len (c :: chr')).
  unfold padString at 1. fold r.
  destruct (Qlt_le_dec _ len) as [Hlt'|Hle']; [|by rewrite app_nil_r].
  rewrite Qfloor_sub_Z.
  assert (Qfloor len ≤ Z.of_nat (length r)) as Hlen.
  { unfold r, padString. destruct (Qlt_le_dec _ len) as [?|Hle].
    - rewrite length_app, repeat_length, Qfloor_sub_Z. simpl length.
      apply Qlt_le_weak, Qfloor_resp_le in Hlt. rewrite Qfloor_Z in Hlt. nia.
    - exfalso. exact (Qlt_not_le _ _ Hlt Hle). }
  replace (Z.to_nat (Qfloor len - Z.of_nat (length r))) with 0%nat by lia.
  simpl. by rewrite app_nil_r.
Qed.

(** ** Range queries *)

Section QueryFacts.
Context {A : Type} `{Timed A}.
Implicit Types data : list A.

Local Abbreviation cmp key := (λ (t : Z) (d : A), t - key d).

(** The test of [inTimeRangeMulti] on an entry that does not end before it
    starts, for [s <= e]. *)
Lemma overlap_test_le s e (d : A) :
  s ≤ e → startTime d ≤ endTime d →
  Range.hasIntersection (Range.new s e)
      (Range.new (startTime d) (endTime d))
    && negb (bool_decide (e = startTime d))
    && negb (bool_decide (s = endTime d)) = true
  ↔ startTime d < e ∧ s < endTime d.
Proof.
  intros Hse Hd. unfold Range.hasIntersection, Range.new. simpl.
  rewrite !andb_true_iff, !negb_true_iff, !bool_decide_eq_false,
    bool_decide_eq_true.
  repeat case_decide; lia.
Qed.

Lemma elem_of_inTimeRangeMulti s e data d :
  s ≤ e → (∀ x, x ∈ data → startTime x ≤ endTime x) →
  d ∈ inTimeRangeMulti s e data
  ↔ d ∈ data ∧ startTime d < e ∧ s < endTime d.
Proof.
  intros Hse Hdata. unfold inTimeRangeMulti. cbv zeta.
  rewrite list_elem_of_In, filter_In, <-list_elem_of_In.
  split.
  - intros [Hin Hp]. split; [done|].
    by apply (overlap_test_le s e d Hse (Hdata d Hin)).
  - intros [Hin Hp]. split; [done|].
    by apply (overlap_test_le s e d Hse (Hdata d Hin)).
Qed.

Lemma ordered_elem data d : ordered data → d ∈ data → startTime d ≤ endTime d.
Proof.
  intros Ho [i Hi]%list_elem_of_lookup.
  exact (chain_lookup _ _ _ _ _ Ho Hi).
Qed.

(** On ordered data, an entry that ends after [s] is not before the start
    index. *)
Lemma startIndex_le_ordered s data i d :
  ordered data → data !! i = Some d → s < endTime d →
  (spec_startIndex s data ≤ i)%nat.
Proof.
  intros Ho Hd Hs.
  rewrite spec_startIndex_lower_bound by done. cbv zeta.
  set (lb := lower_bound (cmp startTime) s data).
  pose proof (lower_bound_le (cmp startTime) s data) as Hlb. fold lb in Hlb.
  destruct (found_at (cmp startTime) s data lb) eqn:Hfound.
  - destruct (decide (lb ≤ i)%nat) as [|Hlt]; [done|exfalso].
    unfold found_at in Hfound.
    destruct (data !! lb) as [x|] eqn:Hx; [|done].
    apply bool_decide_eq_true in Hfound.
    replace lb with (i + S (lb - i - 1))%nat in Hx by lia.
    pose proof (ordered_before _ _ _ _ _ Ho Hd Hx). lia.
  - case_decide as Hlb0; [lia|].
    destruct (decide (lb - 1 ≤ i)%nat) as [|Hlt]; [done|exfalso].
    destruct (data !! (lb - 1)%nat) as [y|] eqn:Hy.
    + pose proof (lower_bound_below (cmp startTime) s data (lb - 1) y
                    ltac:(fold lb; lia) Hy) as Hbelow. simpl in Hbelow.
      replace (lb - 1)%nat with (i + S (lb - 1 - i - 1))%nat in Hy by lia.
      pose proof (ordered_before _ _ _ _ _ Ho Hd Hy). lia.
    + apply lookup_ge_None in Hy. lia.
Qed.

(** On ordered data, an entry that starts before [e] is not after the end
    index. *)
Lemma endIndex_ge_ordered e data i d :
  ordered data → data !! i = Some d → startTime d < e →
  (i ≤ spec_endIndex e data)%nat.
Proof.
  intros Ho Hd He.
  rewrite spec_endIndex_lower_bound by done.
  set (lb := lower_bound (cmp endTime) e data).
  destruct (decide (i ≤ lb)%nat) as [|Hlt]; [done|exfalso].
  destruct (data !! lb) as [x|] eqn:Hx.
  - pose proof (lower_bound_at (cmp endTime) e data x Hx) as Hat.
    simpl in Hat.
    replace i with (lb + S (i - lb - 1))%nat in Hd by lia.
    pose proof (ordered_before _ _ _ _ _ Ho Hx Hd). lia.
  - apply lookup_ge_None in Hx. apply lookup_lt_Some in Hd. lia.
Qed.

(** In a non-empty gapless sequence that the query reaches into, some entry
    overlaps a query of positive length. *)
Lemma gapless_overlapping s e data first last_ :
  gapless data → head data = Some first → last data = Some last_ →
  startTime first < e → s < endTime last_ → s < e →
  ∃ d, d ∈ data ∧ startTime d < e ∧ s < endTime d.
Proof.
  intros Hg Hf Hl He Hs Hse. revert first Hf He.
  induction data as [|d0 rest IH]; intros first Hf He; [done|].
  injection Hf as <-.
  destruct rest as [|d1 rest'].
  - injection Hl as <-. exists d0. split; [by left|done].
  - destruct Hg as (Hd0 & Hnext & Hrest). simpl in Hd0, Hnext.
    destruct (decide (startTime d1 < e)) as [Hd1|Hd1].
    + destruct (IH Hrest Hl d1 eq_refl Hd1) as (d & Hin & Hd).
      exists d. split; [by right|done].
    + exists d0. split; [by left|lia].
Qed.

Lemma outside_span_dec s e data :
  outside_span s e data ∨ ¬ outside_span s e data.
Proof.
  unfold outside_span. destruct (head data), (last data); try tauto. lia.
Qed.

(** On gapless data and for [s <= e], the query is the linear filter. *)
Lemma inTimeRange_gapless_filter s e data :
  gapless data → s ≤ e →
  inTimeRange s e data = Ok (inTimeRangeMulti s e data).
Proof.
  intros Hg Hse.
  destruct data as [|d0 data0] eqn:Hdata; [done|]. rewrite <-Hdata in *.
  assert (data ≠ []) as Hne by by subst.
  destruct (outside_span_dec s e data) as [Hout|Hout].
  - rewrite inTimeRangeMulti_outside by done.
    destruct (nonempty_head_last data Hne) as (first & last_ & Hf & Hl).
    unfold inTimeRange.
    rewrite (inTimeRangeWith_nonempty _ _ _ _ _ _ Hf Hl).
    apply (outside_span_decide _ _ _ _ _ Hf Hl) in Hout. by rewrite Hout.
  - rewrite inTimeRange_ordered by auto using gapless_ordered.
    by rewrite inTimeRangeMulti_gapless.
Qed.

Lemma chain_take P R data n : chain P R data → chain P R (take n data).
Proof.
  revert n. induction data as [|d [|d' rest] IH]; intros n Hc.
  - by destruct n.
  - destruct n as [|[|n]]; simpl in *; tauto.
  - destruct n as [|n]; [done|].
    destruct Hc as (Hd & Hdd & Hrest).
    specialize (IH n Hrest).
    destruct n as [|n]; simpl in *; tauto.
Qed.

Lemma chain_drop P R data n : chain P R data → chain P R (drop n data).
Proof.
  revert n. induction data as [|d rest IH]; intros n Hc.
  - by destruct n.
  - destruct n as [|n]; [done|]. apply IH. by eapply chain_tail.
Qed.

(** The result of the linear filter on gapless data is gapless. *)
Lemma inTimeRangeMulti_gapless_result s e data :
  gapless data → s ≤ e → gapless (inTimeRangeMulti s e data).
Proof.
  intros Hg Hse.
  destruct (decide (data = [])) as [->|Hne]; [done|].
  destruct (outside_span_dec s e data) as [Hout|Hout].
  - by rewrite inTimeRangeMulti_outside.
  - rewrite inTimeRangeMulti_gapless by done.
    unfold spec_filter. by apply chain_take, chain_drop.
Qed.

Lemma filter_filter_impl (f g : A → bool) data :
  (∀ d, d ∈ data → g d = true → f d = true) →
  List.filter g (List.filter f data) = List.filter g data.
Proof.
  induction data as [|d data IH]; intros Himpl; [done|].
  simpl. specialize (IH (λ x Hx, Himpl x (list_elem_of_further _ _ _ Hx))).
  pose proof (Himpl d ltac:(left)) as Hd.
  destruct (f d) eqn:Hf; simpl.
  - rewrite IH. done.
  - destruct (g d); [by specialize (Hd eq_refl)|done].
Qed.

End QueryFacts.

(** X3. For [s <= e] and entries that do not end before they start,
    [inTimeRangeMulti] keeps, in their order, exactly the entries that start
    before [e] and end after [s]; the data need not be sorted. *)
Theorem inTimeRangeMulti_overlapping :
  ∀ (A : Type) (TA : Timed A) (s e : Z) (data : list A),
    s ≤ e → (∀ x, x ∈ data → startTime x ≤ endTime x) →
    inTimeRangeMulti s e data `sublist_of` data
    ∧ ∀ d, d ∈ inTimeRangeMulti s e data
           ↔ d ∈ data ∧ startTime d < e ∧ s < endTime d.
Proof.
  intros A TA s e data Hse Hdata. split.
  - apply filter_sublist.
  - intros d. by apply elem_of_inTimeRangeMulti.
Qed.

Lemma inTimeRangeMulti_overlapping_witness :
  let data := [interval 20 30; interval 0 10; interval 5 5; interval 8 25] in
  3 ≤ 9 ∧ (∀ x, x ∈ data → startTime x ≤ endTime x)
  ∧ inTimeRangeMulti 3 9 data = [interval 0 10; interval 5 5; interval 8 25]
  ∧ ∀ d, d ∈ inTimeRangeMulti 3 9 data
         ↔ d ∈ data ∧ startTime d < 9 ∧ 3 < endTime d.
Proof.
  assert (3 ≤ 9) as Hse by lia.
  assert (∀ x, x ∈ [interval 20 30; interval 0 10; interval 5 5;
                    interval 8 25] → startTime x ≤ endTime x) as Hdata.
  { intros x Hx. repeat (apply elem_of_cons in Hx as [->|Hx]; [cbn; lia|]).
    by apply elem_of_nil in Hx. }
  exact (conj Hse (conj Hdata (conj eq_refl
    (proj2 (inTimeRangeMulti_overlapping Entry _ 3 9 _ Hse Hdata))))).
Defined.

(** X4. On data that satisfies the ordering invariant (gaps and entries of
    no duration allowed) and for [s <= e], [inTimeRange] returns every entry
    that [inTimeRangeMulti] returns: it may return more, it misses none. *)
Theorem inTimeRange_misses_nothing :
  ∀ (A : Type) (TA : Timed A) (s e : Z) (data : list A),
    ordered data → s ≤ e →
    ∃ r, inTimeRange s e data = Ok r
         ∧ ∀ d, d ∈ inTimeRangeMulti s e data → d ∈ r.
Proof.
  intros A TA s e data Ho Hse.
  assert (∀ d, d ∈ inTimeRangeMulti s e data
               → d ∈ data ∧ startTime d < e ∧ s < endTime d) as Hmulti.
  { intros d. apply elem_of_inTimeRangeMulti; [done|].
    intros x. by apply (ordered_elem data). }
  destruct (decide (data = [])) as [->|Hne].
  { exists []. split; [done|]. intros d Hd. by apply Hmulti in Hd as [? _]. }
  destruct (nonempty_head_last data Hne) as (first & last_ & Hf & Hl).
  destruct (outside_span_dec s e data) as [Hout|Hout].
  - (* rejected: no entry reaches into the query *)
    exists []. split.
    { unfold inTimeRange.
      rewrite (inTimeRangeWith_nonempty _ _ _ _ _ _ Hf Hl).
      apply (outside_span_decide _ _ _ _ _ Hf Hl) in Hout. by rewrite Hout. }
    intros d (Hin & Hde & Hds)%Hmulti. exfalso.
    apply list_elem_of_lookup in Hin as [i Hi].
    unfold outside_span in Hout. rewrite Hf, Hl in Hout.
    rewrite head_lookup in Hf. rewrite last_lookup in Hl.
    pose proof (lookup_lt_Some _ _ _ Hi).
    pose proof (ordered_sorted_startTime _ Ho 0%nat i first d
                  ltac:(lia) Hf Hi).
    pose proof (ordered_sorted_endTime _ Ho i (pred (length data)) d last_
                  ltac:(lia) Hi Hl).
    lia.
  - (* the slice holds every index between the two searched indices *)
    exists (spec_filter s e data). split; [by apply inTimeRange_ordered|].
    intros d (Hin & Hde & Hds)%Hmulti.
    apply list_elem_of_lookup in Hin as [i Hi].
    pose proof (startIndex_le_ordered s data i d Ho Hi Hds) as Hlo.
    pose proof (endIndex_ge_ordered e data i d Ho Hi Hde) as Hhi.
    apply list_elem_of_lookup. exists (i - spec_startIndex s data)%nat.
    unfold spec_filter. cbv zeta.
    rewrite lookup_take_lt by lia. rewrite lookup_drop.
    set (a := spec_startIndex s data) in *.
    by replace (a + (i - a))%nat with i by lia.
Qed.

Lemma inTimeRange_misses_nothing_witness :
  let data := [interval 0 10; interval 10 10; interval 15 20] in
  ordered data ∧ 10 ≤ 17
  ∧ inTimeRange 10 17 data = Ok [interval 10 10; interval 15 20]
  ∧ inTimeRangeMulti 10 17 data = [interval 15 20]
  ∧ ∃ r, inTimeRange 10 17 data = Ok r
         ∧ ∀ d, d ∈ inTimeRangeMulti 10 17 data → d ∈ r.
Proof.
  assert (ordered [interval 0 10; interval 10 10; interval 15 20]) as Ho
    by (cbn; lia).
  assert (10 ≤ 17) as Hse by lia.
  exact (conj Ho (conj Hse (conj eq_refl (conj eq_refl
    (inTimeRange_misses_nothing Entry _ 10 17 _ Ho Hse))))).
Defined.

(** X5. On non-empty gapless data, a query of positive length that is not
    rejected as lying outside the span of the data returns at least one
    entry. *)
Theorem inTimeRange_nonempty :
  ∀ (A : Type) (TA : Timed A) (s e : Z) (data : list A),
    gapless data → data ≠ [] → s < e → ¬ outside_span s e data →
    ∃ d r, inTimeRange s e data = Ok (d :: r).
Proof.
  intros A TA s e data Hg Hne Hse Hout.
  rewrite inTimeRange_gapless_filter by (done || lia).
  destruct (nonempty_head_last data Hne) as (first & last_ & Hf & Hl).
  unfold outside_span in Hout. rewrite Hf, Hl in Hout.
  destruct (gapless_overlapping s e data first last_ Hg Hf Hl
              ltac:(lia) ltac:(lia) Hse) as (d & Hin & Hd).
  assert (d ∈ inTimeRangeMulti s e data) as Hres.
  { apply elem_of_inTimeRangeMulti; [lia| |done].
    intros x Hx. apply (ordered_elem data); [by apply gapless_ordered|done]. }
  destruct (inTimeRangeMulti s e data) as [|d' r]; [|by eauto].
  by apply elem_of_nil in Hres.
Qed.

Lemma inTimeRange_nonempty_witness :
  let data := scenario (Finite 1) (Finite 2) (Finite 3) in
  gapless data ∧ data ≠ [] ∧ 29 < 100 ∧ ¬ outside_span 29 100 data
  ∧ ∃ d r, inTimeRange 29 100 data = Ok (d :: r).
Proof.
  assert (gapless (scenario (Finite 1) (Finite 2) (Finite 3))) as Hg
    by (cbn; lia).
  assert (scenario (Finite 1) (Finite 2) (Finite 3) ≠ []) as Hne by done.
  assert (29 < 100) as Hse by lia.
  assert (¬ outside_span 29 100 (scenario (Finite 1) (Finite 2) (Finite 3)))
    as Hout by (cbn; lia).
  exact (conj Hg (conj Hne (conj Hse (conj Hout
    (inTimeRange_nonempty Entry _ 29 100 _ Hg Hne Hse Hout))))).
Defined.

(** X6. On gapless data, querying the result of a query with a range inside
    the first one gives what querying the data directly gives; in
    particular, repeating a query on its own result changes nothing. *)
Theorem inTimeRange_narrowing :
  ∀ (A : Type) (TA : Timed A) (s e s' e' : Z) (data : list A),
    gapless data → s ≤ s' → s' ≤ e' → e' ≤ e →
    ∃ r, inTimeRange s e data = Ok r
         ∧ inTimeRange s' e' r = inTimeRange s' e' data
         ∧ inTimeRange s e r = Ok r.
Proof.
  intros A TA s e s' e' data Hg Hs Hse' He.
  assert (s ≤ e) as Hse by lia.
  exists (inTimeRangeMulti s e data).
  pose proof (inTimeRangeMulti_gapless_result s e data Hg Hse) as Hg'.
  rewrite !inTimeRange_gapless_filter by done.
  assert (∀ d, d ∈ data → startTime d < endTime d) as Hpos.
  { intros d [i Hi]%list_elem_of_lookup.
    exact (chain_lookup _ _ _ _ _ Hg Hi). }
  split_and!; [done| |]; f_equal; unfold inTimeRangeMulti; cbv zeta;
    apply filter_filter_impl; intros d Hd;
    rewrite !overlap_test by (done || lia || by apply Hpos); lia.
Qed.

Lemma inTimeRange_narrowing_witness :
  let data := scenario (Finite 1) (Finite 2) (Finite 3) in
  gapless data ∧ 5 ≤ 12 ∧ 12 ≤ 18 ∧ 18 ≤ 25
  ∧ ∃ r, inTimeRange 5 25 data = Ok r
         ∧ inTimeRange 12 18 r = inTimeRange 12 18 data
         ∧ inTimeRange 5 25 r = Ok r.
Proof.
  assert (gapless (scenario (Finite 1) (Finite 2) (Finite 3))) as Hg
    by (cbn; lia).
  assert (5 ≤ 12) as H1 by lia.
  assert (12 ≤ 18) as H2 by lia.
  assert (18 ≤ 25) as H3 by lia.
  exact (conj Hg (conj H1 (conj H2 (conj H3
    (inTimeRange_narrowing Entry _ 5 25 12 18 _ Hg H1 H2 H3))))).
Defined.

(** ** Total charge *)

Section ChargeFacts.

Local Abbreviation hz_of d :=
  (if decide (endTime d - startTime d ≠ 0)
   then Number.div (Number.of_Z time.MSECS_IN_SEC)
          (Number.of_Z (endTime d - startTime d))
   else Number.of_Z 0).

Local Abbreviation callback :=
  (λ (d : Entry) (_ : nat) (total : number),
     _ ← asserts.assert
           (bool_decide (endTime d - startTime d >= 0))
           ("Negative duration: start=" +:+ pretty (startTime d)
            +:+ ", end=" +:+ pretty (endTime d));
     Ok (Number.add total (Number.div (value d) (hz_of d)))).

(** The loop stops at the first entry of negative duration. *)
Lemma forEach_first_negative (front rest : list Entry) (d : Entry) i total :
  Forall (λ x, startTime x ≤ endTime x) front →
  endTime d < startTime d →
  forEach_from callback (front ++ d :: rest) i total
  = Throw (AssertionError
      ("Assertion failed: Negative duration: start="
       +:+ pretty (startTime d) +:+ ", end=" +:+ pretty (endTime d))).
Proof.
  intros Hfront Hd. revert i total.
  induction Hfront as [|x front Hx Hfront IH]; intros i total.
  - cbn [app forEach_from]. unfold asserts.assert.
    by rewrite bool_decide_eq_false_2 by lia.
  - cbn [app forEach_from]. unfold asserts.assert.
    rewrite bool_decide_eq_true_2 by lia. rewrite !bind_Ok. apply IH.
Qed.

Lemma add_not_finite_l (a b : number) :
  (∀ q, a ≠ Finite q) → ∀ q, Number.add a b ≠ Finite q.
Proof. intros Ha q. destruct a, b; try done. by destruct (Ha q0). Qed.

Lemma add_not_finite_r (a b : number) :
  (∀ q, b ≠ Finite q) → ∀ q, Number.add a b ≠ Finite q.
Proof. intros Hb q. destruct a, b; try done. by destruct (Hb q1). Qed.

Lemma div_zero_not_finite (v : number) :
  ∀ q, Number.div v (Number.of_Z 0) ≠ Finite q.
Proof.
  intros q. destruct v as [x| | |]; simpl; [|done..].
  by destruct (x ?= 0)%Q.
Qed.

Lemma fold_left_not_finite (data : list Entry) (total : number) :
  (∀ q, total ≠ Finite q) →
  ∀ q, fold_left (λ total d,
         Number.add total (Number.div (value d) (hz_of d))) data total
       ≠ Finite q.
Proof.
  revert total. induction data as [|d data IH]; intros total Htotal; [done|].
  cbn [fold_left]. apply IH. by apply add_not_finite_l.
Qed.

Lemma fold_left_zero_duration (data : list Entry) (total : number) :
  Exists (λ d, endTime d = startTime d) data →
  ∀ q, fold_left (λ total d,
         Number.add total (Number.div (value d) (hz_of d))) data total
       ≠ Finite q.
Proof.
  intros Hex. revert total.
  induction Hex as [d data Hd|d data Hex IH]; intros total.
  - cbn [fold_left]. apply fold_left_not_finite.
    rewrite decide_False by lia.
    apply add_not_finite_r, div_zero_not_finite.
  - cbn [fold_left]. apply IH.
Qed.

End ChargeFacts.

(** X7. [calculateTotalCharge] and [calculateTotalChargeFormatted] return
    when no entry has a negative duration, and throw an assertion error when
    some entry has one. *)
Theorem calculateTotalCharge_raises :
  ∀ data : list Entry,
    (Forall (λ d, startTime d ≤ endTime d) data →
       ∃ total, calculateTotalCharge data = Ok total
                ∧ calculateTotalChargeFormatted data = Ok (toFixed total 2))
    ∧ (Exists (λ d, endTime d < startTime d) data →
         ∃ msg, calculateTotalCharge data = Throw (AssertionError msg)
                ∧ calculateTotalChargeFormatted data
                  = Throw (AssertionError msg)).
Proof.
  intros data.
  pose proof (calculateTotalCharge_throws_iff data) as Hiff.
  unfold calculateTotalChargeFormatted.
  destruct (calculateTotalCharge data) as [total|e] eqn:Hres.
  - split; [by eauto|]. intros Hex. exfalso.
    apply Exists_exists in Hex as (d & Hin & Hd).
    destruct (proj2 Hiff) as [e [=]]. eauto.
  - destruct (calculateTotalCharge_throws_assertion data e Hres) as [msg ->].
    split; [|by eauto]. intros Hall. exfalso.
    destruct (proj1 Hiff) as (d & Hin & Hd); [by eauto|].
    rewrite Forall_forall in Hall. specialize (Hall d Hin).
    simpl in Hall, Hd. lia.
Qed.

Lemma calculateTotalCharge_raises_witness :
  let good := [mkEntry 0 1000 (Finite 36); mkEntry 1000 3000 (Finite 18)] in
  let bad := [mkEntry 0 1000 (Finite 36); mkEntry 3000 1000 (Finite 18)] in
  Forall (λ d, startTime d ≤ endTime d) good
  ∧ Exists (λ d, endTime d < startTime d) bad
  ∧ (∃ total, calculateTotalCharge good = Ok total
              ∧ calculateTotalChargeFormatted good = Ok (toFixed total 2))
  ∧ (∃ msg, calculateTotalCharge bad = Throw (AssertionError msg)
            ∧ calculateTotalChargeFormatted bad = Throw (AssertionError msg)).
Proof.
  assert (Forall (λ d, startTime d ≤ endTime d)
            [mkEntry 0 1000 (Finite 36); mkEntry 1000 3000 (Finite 18)])
    as Hgood by (repeat constructor; cbn; lia).
  assert (Exists (λ d, endTime d < startTime d)
            [mkEntry 0 1000 (Finite 36); mkEntry 3000 1000 (Finite 18)])
    as Hbad by (right; left; cbn; lia).
  exact (conj Hgood (conj Hbad (conj
    (proj1 (calculateTotalCharge_raises _) Hgood)
    (proj2 (calculateTotalCharge_raises _) Hbad)))).
Defined.

(** X8. The assertion error is that of the first entry of negative duration:
    its message gives the start and the end of that entry, and the entries
    after it are not looked at. *)
Theorem calculateTotalCharge_first_negative :
  ∀ (front rest : list Entry) (d : Entry),
    Forall (λ x, startTime x ≤ endTime x) front →
    endTime d < startTime d →
    calculateTotalCharge (front ++ d :: rest)
    = Throw (AssertionError
        ("Assertion failed: Negative duration: start="
         +:+ pretty (startTime d) +:+ ", end=" +:+ pretty (endTime d)))
    ∧ calculateTotalChargeFormatted (front ++ d :: rest)
      = Throw (AssertionError
          ("Assertion failed: Negative duration: start="
           +:+ pretty (startTime d) +:+ ", end=" +:+ pretty (endTime d))).
Proof.
  intros front rest d Hfront Hd.
  unfold calculateTotalChargeFormatted, calculateTotalCharge, forEach.
  by rewrite (forEach_first_negative front rest d 0 _ Hfront Hd).
Qed.

Lemma calculateTotalCharge_first_negative_witness :
  let front := [mkEntry 0 1000 (Finite 36)] in
  let d := mkEntry 3000 1000 (Finite 18) in
  let rest := [mkEntry 9 2 (Finite 1)] in
  Forall (λ x, startTime x ≤ endTime x) front
  ∧ endTime d < startTime d
  ∧ calculateTotalCharge (front ++ d :: rest)
    = Throw (AssertionError
        "Assertion failed: Negative duration: start=3000, end=1000").
Proof.
  assert (Forall (λ x, startTime x ≤ endTime x) [mkEntry 0 1000 (Finite 36)])
    as Hfront by (repeat constructor; cbn; lia).
  assert (endTime (mkEntry 3000 1000 (Finite 18))
          < startTime (mkEntry 3000 1000 (Finite 18))) as Hd by (cbn; lia).
  exact (conj Hfront (conj Hd
    (proj1 (calculateTotalCharge_first_negative _ [mkEntry 9 2 (Finite 1)] _
              Hfront Hd)))).
Defined.



(** X10. One entry of no duration spoils the total: when no entry has a
    negative duration and some entry starts and ends at the same time, the
    result is [Infinity], [-Infinity] or [NaN], whatever the readings. *)
Theorem calculateTotalCharge_not_finite :
  ∀ data : list Entry,
    Forall (λ d, startTime d ≤ endTime d) data →
    Exists (λ d, endTime d = startTime d) data →
    ∃ total, calculateTotalCharge data = Ok total ∧ ∀ q, total ≠ Finite q.
Proof.
  intros data Hall Hex. unfold calculateTotalCharge, forEach.
  pose proof (forEach_calculateTotalCharge data 0 (Number.of_Z 0)) as Hloop.
  destruct (forEach_from _ data _ _) as [total'|e].
  - destruct Hloop as [_ ->]. rewrite bind_Ok. eexists. split; [done|].
    pose proof (fold_left_zero_duration data (Number.of_Z 0) Hex) as Hnf.
    intros q. destruct (fold_left _ data _) as [x| | |]; try done.
    by destruct (Hnf x).
  - destruct Hloop as (d & msg & Hin & Hneg & ->).
    rewrite Forall_forall in Hall. specialize (Hall d Hin).
    simpl in Hall, Hneg. lia.
Qed.

Lemma calculateTotalCharge_not_finite_witness :
  let data := [mkEntry 0 1000 (Finite 36); mkEntry 1000 1000 (Finite (-5))] in
  Forall (λ d, startTime d ≤ endTime d) data
  ∧ Exists (λ d, endTime d = startTime d) data
  ∧ calculateTotalCharge data = Ok NegInfinity
  ∧ ∃ total, calculateTotalCharge data = Ok total ∧ ∀ q, total ≠ Finite q.
Proof.
  assert (Forall (λ d, startTime d ≤ endTime d)
            [mkEntry 0 1000 (Finite 36); mkEntry 1000 1000 (Finite (-5))])
    as Hall by (repeat constructor; cbn; lia).
  assert (Exists (λ d, endTime d = startTime d)
            [mkEntry 0 1000 (Finite 36); mkEntry 1000 1000 (Finite (-5))])
    as Hex by (right; left; reflexivity).
  exact (conj Hall (conj Hex (conj eq_refl
    (calculateTotalCharge_not_finite _ Hall Hex)))).
Defined.

(** ** Derivative *)




Lemma sub_same (v v' : Q) :
  (v == v')%Q → Number.sub (Finite v') (Finite v) = Finite 0.
Proof.
  intros Hv. unfold Number.sub, Number.neg, Number.add. f_equal.
  change 0%Q with (Qred 0). apply Qred_complete.
  rewrite Qred_correct, Hv. ring.
Qed.

Lemma div_zero_by (h : number) :
  Number.eq h (Number.of_Z 0) = false → (∃ q, h = Finite q) →
  Number.div (Finite 0) h = Finite 0.
Proof.
  intros Hne [q ->]. unfold Number.eq, Number.compare, Number.of_Z in Hne.
  unfold Number.div.
  change (inject_Z 0) with 0%Q in Hne.
  destruct (q ?= 0)%Q eqn:Hq; [done| |];
    (f_equal; change 0%Q with (Qred 0) at 2; apply Qred_complete;
     unfold Qdiv; ring).
Qed.

(** X12. Where two consecutive entries have the same (finite) reading, the
    derivative is 0, whether or not their start times differ. *)
Theorem generateDerivative_flat :
  ∀ (data : list Entry) (i : nat) (cur next : Entry) (v v' : Q),
    data !! i = Some cur → data !! (i + 1)%nat = Some next →
    value cur = Finite v → value next = Finite v' → (v == v')%Q →
    ∃ r, generateDerivative data = Ok r
         ∧ r !! i = Some (mkEntry (startTime cur) (startTime next) (Finite 0)).
Proof.
  intros data i cur next v v' Hcur Hnext Hv Hv' Heq.
  exists (consecutive_rates data).
  split; [apply generateDerivative_consecutive_rates|].
  rewrite consecutive_rates_lookup, Hcur, Hnext.
  unfold rate_of_change. rewrite Hv, Hv', (sub_same v v' Heq).
  do 2 f_equal. case_decide as Ht; [done|].
  apply div_zero_by.
  - rewrite hours_eq_0. apply bool_decide_eq_false_2. lia.
  - unfold hours, Number.div, Number.of_Z.
    rewrite compare_inject_Z_pos by done. eauto.
Qed.

Lemma generateDerivative_flat_witness :
  let data := [mkEntry 0 1 (Finite 7); mkEntry 500 1 (Finite (14 # 2))] in
  data !! 0%nat = Some (mkEntry 0 1 (Finite 7))
  ∧ (7 == 14 # 2)%Q
  ∧ ∃ r, generateDerivative data = Ok r
         ∧ r !! 0%nat = Some (mkEntry 0 500 (Finite 0)).
Proof.
  split; [reflexivity|].
  assert (7 == 14 # 2)%Q as Heq by reflexivity.
  split; [exact Heq|].
  exact (generateDerivative_flat
    [mkEntry 0 1 (Finite 7); mkEntry 500 1 (Finite (14 # 2))] 0
    (mkEntry 0 1 (Finite 7)) (mkEntry 500 1 (Finite (14 # 2))) 7 (14 # 2)
    eq_refl eq_refl eq_refl eq_refl Heq).
Defined.

(** ** Byte counts *)

Lemma toFixed_Qeq (q q' : Q) (f : nat) :
  (q == q')%Q → toFixed (Finite q) f = toFixed (Finite q') f.
Proof.
  intros Hq. unfold toFixed. cbv zeta.
  assert (Qabs q == Qabs q')%Q as Habs by by rewrite Hq.
  assert (Qfloor (Qabs q * inject_Z (10 ^ Z.of_nat f) + (1 # 2))
          = Qfloor (Qabs q' * inject_Z (10 ^ Z.of_nat f) + (1 # 2))) as Hfl.
  { apply Qfloor_comp. by rewrite Habs. }
  destruct (Qlt_le_dec q 0) as [H0|H0], (Qlt_le_dec q' 0) as [H0'|H0'];
    try (exfalso; rewrite Hq in H0; exact (Qlt_not_le _ _ ltac:(eassumption)
                                             ltac:(eassumption)));
    destruct (Qlt_le_dec (Qabs q) _) as [H1|H1],
             (Qlt_le_dec (Qabs q') _) as [H1'|H1'];
    try (exfalso; rewrite Habs in H1;
         exact (Qlt_not_le _ _ ltac:(eassumption) ltac:(eassumption)));
    try done; by rewrite Hfl.
Qed.

Lemma Qfloor_half (z : Z) : Qfloor (inject_Z z + (1 # 2)) = z.
Proof.
  unfold Qfloor, Qplus, inject_Z. simpl.
  symmetry. apply (Z.div_unique _ _ _ 1); lia.
Qed.

(** A whole number below [10^21] is printed with [.00]. *)
Lemma toFixed_whole (k : Z) :
  0 ≤ k < 10 ^ 21 →
  toFixed (Finite (inject_Z k)) 2 = Some (pretty (Z.to_N k) +:+ ".00").
Proof.
  intros Hk. unfold toFixed. cbv zeta.
  destruct (Qlt_le_dec (inject_Z k) 0) as [Hneg|_].
  { exfalso. change 0%Q with (inject_Z 0) in Hneg.
    rewrite <-Zlt_Qlt in Hneg. lia. }
  assert (Qabs (inject_Z k) = inject_Z k) as ->.
  { unfold Qabs, inject_Z. by rewrite Z.abs_eq by lia. }
  destruct (Qlt_le_dec (inject_Z k) _) as [_|Hbig].
  2:{ exfalso. rewrite <-Zle_Qle in Hbig. lia. }
  rewrite <-inject_Z_mult, Qfloor_half.
  change (10 ^ Z.of_nat 2) with 100.
  rewrite Z2N.inj_mul by lia. change (Z.to_N 100) with 100%N.
  rewrite N.div_mul, N.Div0.mod_mul by done.
  reflexivity.
Qed.

Lemma describeBytes_units (q : Q) :
  describeBytes (Finite q) =
    if Qlt_le_dec q 512 then
      subs_suffix " bytes" (toFixed (Finite q) 2)
    else if Qlt_le_dec q 524288 then
      subs_suffix " KB" (toFixed (Finite (Qred (q / 1024))) 2)
    else if Qlt_le_dec q 536870912 then
      subs_suffix " MB" (toFixed (Finite (Qred (q / 1048576))) 2)
    else
      subs_suffix " GB" (toFixed (Finite (Qred (q / 1073741824))) 2).
Proof.
  unfold describeBytes.
  change (Number.div (Number.of_Z 1024) (Number.of_Z 2)) with (Finite 512).
  change (Number.div (Number.mul (Number.of_Z 1024) (Number.of_Z 1024))
            (Number.of_Z 2)) with (Finite 524288).
  change (Number.div (Number.mul (Number.mul (Number.of_Z 1024)
            (Number.of_Z 1024)) (Number.of_Z 1024)) (Number.of_Z 2)) with
    (Finite 536870912).
  change (Number.mul (Number.mul (Number.of_Z 1024) (Number.of_Z 1024))
            (Number.of_Z 1024)) with (Finite 1073741824).
  change (Number.mul (Number.of_Z 1024) (Number.of_Z 1024)) with
    (Finite 1048576).
  rewrite !lt_Finite.
  by repeat destruct (Qlt_le_dec q _).
Qed.

Lemma Qlt_inject_Z_dec (k n : Z) (X Y : option string) :
  (if Qlt_le_dec (inject_Z k) (inject_Z n) then X else Y)
  = if decide (k < n) then X else Y.
Proof.
  destruct (Qlt_le_dec _ _) as [Hlt|Hle]; case_decide as Hd; try done.
  - rewrite <-Zlt_Qlt in Hlt. lia.
  - rewrite <-Zle_Qle in Hle. lia.
Qed.

Lemma toFixed_multiple (k unit_ : Z) :
  0 ≤ k < 10 ^ 21 → 0 < unit_ →
  toFixed (Finite (Qred (inject_Z (k * unit_) / inject_Z unit_))) 2
  = Some (pretty (Z.to_N k) +:+ ".00").
Proof.
  intros Hk Hunit. rewrite <-(toFixed_whole k Hk). apply toFixed_Qeq.
  rewrite Qred_correct, inject_Z_mult. field.
  intros Heq. apply (inject_Z_injective unit_ 0) in Heq. lia.
Qed.

(** X13. Whole byte counts and whole multiples of a unit are printed as
    whole numbers: [n] bytes below 512 as ["n.00 bytes"], and [k] times
    1024, 1024^2 or 1024^3 bytes as ["k.00 KB"], ["k.00 MB"] or
    ["k.00 GB"] (for [k] from 1 to 511; any [k >= 1] below [10^21] for
    GB). *)
Theorem describeBytes_whole :
  ∀ k : Z,
    (0 ≤ k < 512 →
       describeBytes (Number.of_Z k)
       = Some (pretty (Z.to_N k) +:+ ".00 bytes"))
    ∧ (1 ≤ k < 512 →
         describeBytes (Number.of_Z (k * 1024))
         = Some (pretty (Z.to_N k) +:+ ".00 KB")
         ∧ describeBytes (Number.of_Z (k * 1048576))
           = Some (pretty (Z.to_N k) +:+ ".00 MB"))
    ∧ (1 ≤ k < 10 ^ 21 →
         describeBytes (Number.of_Z (k * 1073741824))
         = Some (pretty (Z.to_N k) +:+ ".00 GB")).
Proof.
  intros k. unfold Number.of_Z.
  change 512%Q with (inject_Z 512). change 524288%Q with (inject_Z 524288).
  split_and!; intros Hk; [|split|]; rewrite describeBytes_units;
    change 512%Q with (inject_Z 512);
    change 524288%Q with (inject_Z 524288);
    change 536870912%Q with (inject_Z 536870912);
    rewrite !Qlt_inject_Z_dec.
  - rewrite decide_True by lia. rewrite toFixed_whole by lia.
    cbn [subs_suffix fmap option_fmap option_map]. by rewrite append_assoc.
  - rewrite decide_False, decide_True by lia.
    change 1024%Q with (inject_Z 1024). rewrite toFixed_multiple by lia.
    cbn [subs_suffix fmap option_fmap option_map]. by rewrite append_assoc.
  - rewrite !decide_False, decide_True by lia.
    change 1048576%Q with (inject_Z 1048576).
    rewrite toFixed_multiple by lia.
    cbn [subs_suffix fmap option_fmap option_map]. by rewrite append_assoc.
  - rewrite !decide_False by lia.
    change 1073741824%Q with (inject_Z 1073741824).
    rewrite toFixed_multiple by lia.
    cbn [subs_suffix fmap option_fmap option_map]. by rewrite append_assoc.
Qed.

Lemma describeBytes_whole_witness :
  (0 ≤ 17 < 512) ∧ (1 ≤ 17 < 10 ^ 21)
  ∧ describeBytes (Number.of_Z 17) = Some "17.00 bytes"
  ∧ describeBytes (Number.of_Z (17 * 1024)) = Some "17.00 KB"
  ∧ describeBytes (Number.of_Z (17 * 1048576)) = Some "17.00 MB"
  ∧ describeBytes (Number.of_Z (17 * 1073741824)) = Some "17.00 GB".
Proof.
  assert (0 ≤ 17 < 512) as H0 by lia.
  assert (1 ≤ 17 < 512) as H1 by lia.
  assert (1 ≤ 17 < 10 ^ 21) as H2 by lia.
  exact (conj H0 (conj H2 (conj
    (proj1 (describeBytes_whole 17) H0) (conj
    (proj1 (proj1 (proj2 (describeBytes_whole 17)) H1)) (conj
    (proj2 (proj1 (proj2 (describeBytes_whole 17)) H1))
    (proj2 (proj2 (describeBytes_whole 17)) H2)))))).
Defined.

(** ** Identifiers *)

Lemma append_cons (c : ascii) (s1 s2 : string) :
  String c s1 +:+ s2 = String c (s1 +:+ s2).
Proof. reflexivity. Qed.

Lemma remove_outside_class_app (s1 s2 : string) :
  remove_outside_class (s1 +:+ s2)
  = remove_outside_class s1 +:+ remove_outside_class s2.
Proof.
  induction s1 as [|c s1 IH]; [done|].
  rewrite append_cons. cbn [remove_outside_class].
  destruct (in_class c); [|done]. by rewrite append_cons, IH.
Qed.

Lemma map_string_app (f : ascii → ascii) (s1 s2 : string) :
  map_string f (s1 +:+ s2) = map_string f s1 +:+ map_string f s2.
Proof.
  induction s1 as [|c s1 IH]; [done|].
  rewrite append_cons. cbn [map_string]. by rewrite append_cons, IH.
Qed.

Lemma map_string_length (f : ascii → ascii) (s : string) :
  String.length (map_string f s) = String.length s.
Proof. induction s as [|c s IH]; simpl; [done|]. by rewrite IH. Qed.

Lemma remove_outside_class_length (s : string) :
  (String.length (remove_outside_class s) ≤ String.length s)%nat.
Proof.
  induction s as [|c s IH]; simpl; [done|].
  destruct (in_class c); simpl; lia.
Qed.

Lemma is_id_char_fixed (c : ascii) :
  is_id_char c = true ↔ in_class c = true ∧ ascii_lower c = c.
Proof.
  destruct c as [[] [] [] [] [] [] [] []]; vm_compute;
    split; (intros [??] || intros ?); first [done | split; done].
Qed.

Lemma all_id_chars_fixed (s : string) :
  all_id_chars s
  ↔ remove_outside_class s = s ∧ map_string ascii_lower s = s.
Proof.
  induction s as [|c s IH]; [done|].
  cbn [all_id_chars remove_outside_class map_string].
  rewrite is_id_char_fixed, IH. split.
  - intros ((Hc & Hl) & Hr & Hm). by rewrite Hc, Hl, Hr, Hm.
  - destruct (in_class c) eqn:Hc.
    + intros ([= Hr] & [= Hl Hm]). by rewrite Hr.
    + intros [Hr _]. exfalso.
      pose proof (remove_outside_class_length s) as Hlen.
      rewrite Hr in Hlen. simpl in Hlen. lia.
Qed.

(** X14. [toValidID] works character by character: the identifier of a
    concatenation is the concatenation of the identifiers, and an identifier
    is never longer than the string it comes from. *)
Theorem toValidID_append :
  ∀ toLowerCase : string → string,
    (∀ str, all_ascii str → toLowerCase str = map_string ascii_lower str) →
    ∀ s1 s2 : string,
      toValidID toLowerCase (s1 +:+ s2)
        = toValidID toLowerCase s1 +:+ toValidID toLowerCase s2
      ∧ (String.length (toValidID toLowerCase s1) ≤ String.length s1)%nat.
Proof.
  intros toLowerCase HtoLowerCase s1 s2.
  rewrite !(toValidID_ascii _ HtoLowerCase). split.
  - by rewrite remove_outside_class_app, map_string_app.
  - rewrite map_string_length. apply remove_outside_class_length.
Qed.

Lemma toValidID_append_witness :
  let toLowerCase := map_string ascii_lower in
  (∀ str, all_ascii str → toLowerCase str = map_string ascii_lower str)
  ∧ toValidID toLowerCase ("Wi-Fi " +:+ "Signal (dBm)") = "wi-fisignaldbm"
  ∧ toValidID toLowerCase ("Wi-Fi " +:+ "Signal (dBm)")
    = toValidID toLowerCase "Wi-Fi " +:+ toValidID toLowerCase "Signal (dBm)".
Proof.
  split; [intros str _; reflexivity|]. split; [reflexivity|].
  exact (proj1 (toValidID_append (map_string ascii_lower)
    (λ str _, eq_refl) "Wi-Fi " "Signal (dBm)")).
Defined.

(** X15. The strings that [toValidID] leaves as they are are exactly the
    strings made of the characters [[a-z0-9_-]]. *)
Theorem toValidID_fixed_points :
  ∀ toLowerCase : string → string,
    (∀ str, all_ascii str → toLowerCase str = map_string ascii_lower str) →
    ∀ s : string, toValidID toLowerCase s = s ↔ all_id_chars s.
Proof.
  intros toLowerCase HtoLowerCase s.
  rewrite (toValidID_ascii _ HtoLowerCase), all_id_chars_fixed. split.
  - intros Hs.
    assert (remove_outside_class s = s) as Hr.
    { pose proof (remove_outside_class_length s) as Hlen.
      pose proof (f_equal String.length Hs) as Hlen'.
      rewrite map_string_length in Hlen'. clear Hs.
      induction s as [|c s IH]; [done|]. simpl in *.
      destruct (in_class c); simpl in *.
      - f_equal. apply IH; lia.
      - pose proof (remove_outside_class_length s). lia. }
    split; [done|]. by rewrite Hr in Hs.
  - intros [Hr Hm]. by rewrite Hr.
Qed.

Lemma toValidID_fixed_points_witness :
  let toLowerCase := map_string ascii_lower in
  (∀ str, all_ascii str → toLowerCase str = map_string ascii_lower str)
  ∧ all_id_chars "wake_lock-2"
  ∧ toValidID toLowerCase "wake_lock-2" = "wake_lock-2".
Proof.
  split; [intros str _; reflexivity|].
  assert (all_id_chars "wake_lock-2") as Hid by (cbn; repeat split).
  split; [exact Hid|].
  exact (proj2 (toValidID_fixed_points (map_string ascii_lower)
    (λ str _, eq_refl) "wake_lock-2") Hid).
Defined.

(** ** Geometry *)

Lemma signed_infinity_comm (s t : comparison) :
  Number.signed_infinity s t = Number.signed_infinity t s.
Proof. by destruct s, t. Qed.

Lemma signed_infinity_opp (s t : comparison) :
  Number.signed_infinity (CompOpp s) (CompOpp t) = Number.signed_infinity s t.
Proof. by destruct s, t. Qed.

Lemma compare_Qred_opp (x : Q) : (Qred (- x) ?= 0)%Q = CompOpp (x ?= 0)%Q.
Proof.
  rewrite (Qcompare_comp _ _ (Qred_correct (- x)) 0%Q 0%Q (Qeq_refl 0)).
  destruct x as [n d]. unfold Qcompare. simpl.
  rewrite !Z.mul_1_r. by destruct n.
Qed.

Lemma mul_comm (a b : number) : Number.mul a b = Number.mul b a.
Proof.
  destruct a as [x| | |], b as [y| | |]; simpl; try done;
    first [ f_equal; apply Qred_complete; ring
          | by destruct (_ ?= 0)%Q ].
Qed.

Lemma mul_neg_neg (a b : number) :
  Number.mul (Number.neg a) (Number.neg b) = Number.mul a b.
Proof.
  destruct a as [x| | |], b as [y| | |]; simpl; try done;
    rewrite ?compare_Qred_opp;
    first [ f_equal; apply Qred_complete; rewrite !Qred_correct; ring
          | by destruct (_ ?= 0)%Q ].
Qed.

Lemma sub_neg_swap (a b : number) :
  Number.sub a b = Number.neg (Number.sub b a).
Proof.
  destruct a as [x| | |], b as [y| | |]; try done.
  unfold Number.sub, Number.neg, Number.add. f_equal.
  apply Qred_complete. rewrite !Qred_correct. ring.
Qed.

Lemma le_abs_neg (z : number) (r : Q) :
  Number.le (Number.abs (Number.neg z)) (Finite r)
  = Number.le (Number.abs z) (Finite r).
Proof.
  destruct z as [x| | |]; try done.
  unfold Number.le, Number.abs, Number.neg, Number.compare.
  assert (Qabs (Qred (- x)) == Qabs x)%Q as Habs
    by (by rewrite Qred_correct, Qabs_opp).
  by rewrite (Qcompare_comp _ _ Habs r r (Qeq_refl r)).
Qed.

(** X16. Whether the line through [a] and [b] meets the segment does not
    depend on the order in which the two ends of the segment are given. *)
Theorem intersectLineSeg_swap_segment :
  ∀ a b c d : point, intersectLineSeg a b c d = intersectLineSeg a b d c.
Proof.
  intros a b c d. unfold intersectLineSeg. cbv zeta.
  set (ab1 := Number.sub b.1 a.1). set (ab2 := Number.sub b.2 a.2).
  set (ac1 := Number.sub c.1 a.1). set (ac2 := Number.sub c.2 a.2).
  set (ad1 := Number.sub d.1 a.1). set (ad2 := Number.sub d.2 a.2).
  cbn [fst snd].
  set (crosscb := Number.sub (Number.mul ac2 ab1) (Number.mul ac1 ab2)).
  set (crossbd := Number.sub (Number.mul ab2 ad1) (Number.mul ab1 ad2)).
  assert (Number.sub (Number.mul ad2 ab1) (Number.mul ad1 ab2)
          = Number.neg crossbd) as ->.
  { unfold crossbd. rewrite (mul_comm ad2), (mul_comm ad1).
    apply sub_neg_swap. }
  assert (Number.sub (Number.mul ab2 ac1) (Number.mul ab1 ac2)
          = Number.neg crosscb) as ->.
  { unfold crosscb. rewrite (mul_comm ab2), (mul_comm ab1).
    apply sub_neg_swap. }
  rewrite !le_abs_neg, mul_neg_neg, (mul_comm crossbd).
  by rewrite orb_comm.
Qed.








